(** * Appsmith client: dependency-map utilities and number-slider arithmetic

    Shallow embedding of
    - [app/client/src/workers/DependencyMap/utils.ts]
      ([extractInfoFromIdentifiers], [extractInfoFromBinding]), and
    - [app/client/src/widgets/NumberSliderWidget/utils.ts]
      ([getPosition], [getChangeValue], [clamp], [isMarkedFilled],
      [getSliderStyles]),
    - the keyboard navigation of [AddPageContextMenu], and
    - [app/client/src/widgets/BaseWidget.tsx]
      ([shouldUpdateDynamicHeight], [getPositionStyle], [getErrorCount],
      [getWidgetView]),
    together with a model of the incremental evaluator that the
    specification describes. *)

From Stdlib Require Import Ascii String QArith Qabs Qround Qminmax Lqa.
From stdpp Require Import gmap strings list.
From Equations Require Import Equations.

Local Open Scope string_scope.
Local Open Scope nat_scope.

(** ** workers/DependencyMap/utils.ts *)

Module DependencyMap.

(** [{ references: string[]; unreferencedIdentifiers: string[] }] *)
Record Info := mkInfo {
  references : list string;
  unreferencedIdentifiers : list string
}.

(** [allPaths : Record<string, true>] carries nothing but its set of own
    keys; [allPaths.hasOwnProperty(k)] is membership in that set. The method
    is the one inherited from [Object.prototype]: a record that had an own
    key of that very name would shadow it, and is not considered. *)
Definition hasOwnProperty (allPaths : gset string) (k : string) : bool :=
  bool_decide (k ∈ allPaths).

(** [Set.prototype.add] followed at the end by [Array.from]: a JS [Set]
    iterates in insertion order and ignores a value it already holds. *)
Definition add (s : string) (refs : list string) : list string :=
  if bool_decide (s ∈ refs) then refs else refs ++ [s].

(** [subpaths.pop()] *)
Definition pop (subpaths : list string) : list string := removelast subpaths.

Lemma pop_length subpaths : length (pop subpaths) = length subpaths - 1.
Proof.
  unfold pop. induction subpaths as [|a [|b l] IH]; simpl in *; lia.
Qed.

Lemma pop_take subpaths : pop subpaths = take (length subpaths - 1) subpaths.
Proof.
  unfold pop. rewrite removelast_firstn_len. f_equal. lia.
Qed.

Lemma hasOwnProperty_true allPaths k :
  hasOwnProperty allPaths k = true ↔ k ∈ allPaths.
Proof. unfold hasOwnProperty. apply bool_decide_eq_true. Qed.

Lemma hasOwnProperty_false allPaths k :
  hasOwnProperty allPaths k = false ↔ k ∉ allPaths.
Proof. unfold hasOwnProperty. apply bool_decide_eq_false. Qed.

Lemma elem_of_add x s refs : x ∈ add s refs ↔ x = s ∨ x ∈ refs.
Proof.
  unfold add. case_bool_decide.
  - split; [auto|]. intros [->|]; done.
  - rewrite elem_of_app, list_elem_of_singleton.
    split; intros [?|?]; auto.
Qed.

Lemma NoDup_add s refs : NoDup refs → NoDup (add s refs).
Proof.
  intros Hnd. unfold add. case_bool_decide; [done|].
  apply NoDup_app. split_and!; [done| |apply NoDup_singleton].
  intros x Hx ->%list_elem_of_singleton. done.
Qed.

(** *** Path syntax

    Modelled from the spec: lodash's [toPath] and [convertPathToString] of
    [workers/evaluationUtils] are missing from the sources; "bindings
    reference paths by dotted/bracket identifier syntax". The two functions
    below read and print that syntax for plain identifiers such as
    [Table1.selectedRow.id] and [Api1.data[0].name]. The theorems of this
    module hold for every choice of the two functions; these instances only
    serve to run the code on concrete identifiers. *)
Module Syntax.

Definition isDelimiter (c : ascii) : bool :=
  bool_decide (c = "."%char) || bool_decide (c = "["%char)
  || bool_decide (c = "]"%char).

Definition emit (segment : string) (rest : list string) : list string :=
  if bool_decide (segment = "") then rest else segment :: rest.

(** Cuts at [.], [[] and []] and keeps the non-empty pieces. *)
Fixpoint segments (current : string) (s : string) : list string :=
  match s with
  | EmptyString => emit current []
  | String c rest =>
      if isDelimiter c then emit current (segments "" rest)
      else segments (current +:+ String c "") rest
  end.

Definition toPath (identifier : string) : list string :=
  segments "" identifier.

Definition isDigit (c : ascii) : bool :=
  let n := nat_of_ascii c in (48 <=? n)%nat && (n <=? 57)%nat.

Fixpoint allDigits (s : string) : bool :=
  match s with
  | EmptyString => true
  | String c rest => isDigit c && allDigits rest
  end.

(** [/^\d+$/] *)
Definition isInt (segment : string) : bool :=
  negb (bool_decide (segment = "")) && allDigits segment.

(** An integer segment prints as [[n]], any other one as [.name] (without
    the dot at the very start). *)
Definition convertPathToString (arrPath : list string) : string :=
  foldl (fun acc segment =>
           if isInt segment then acc +:+ "[" +:+ segment +:+ "]"
           else (if bool_decide (acc = "") then acc else acc +:+ ".")
                  +:+ segment)
        "" arrPath.

End Syntax.

Section WithPathSyntax.

(** [toPath] is lodash's, [convertPathToString] is imported from
    [workers/evaluationUtils] and [extractIdentifiersFromCode] from
    [@shared/ast]. The functions below take them as parameters: pure
    functions, [toPath] returning a fresh array on every call, so that
    [subpaths.pop()] is not seen by any other call. *)
Variable toPath : string → list string.
Variable convertPathToString : list string → string.

(** The [while (subpaths.length > 1)] loop of the callback: [Some current]
    when the loop leaves through [references.add(current); return], [None]
    when it runs to completion. *)
Equations? findSubpath (allPaths : gset string) (subpaths : list string)
  : option string by wf (length subpaths) lt :=
findSubpath allPaths subpaths with decide (1 < length subpaths) := {
  | left Hlen =>
      let current := convertPathToString subpaths in
      if hasOwnProperty allPaths current then Some current
      else findSubpath allPaths (pop subpaths)
  | right _ => None }.
Proof.
  rewrite pop_length. lia.
Qed.

(** What one call of the [forEach] callback decides for [identifier]. *)
Inductive Verdict :=
| Reference (path : string)
| Unreferenced.

Definition classify (allPaths : gset string) (identifier : string) : Verdict :=
  if hasOwnProperty allPaths identifier then Reference identifier
  else match findSubpath allPaths (toPath identifier) with
       | Some current => Reference current
       | None => Unreferenced
       end.

(** The callback itself, as a transition on the two accumulators
    [references] (a [Set]) and [unreferencedIdentifiers] (an array). *)
Definition visit (allPaths : gset string) (acc : Info) (identifier : string)
  : Info :=
  match classify allPaths identifier with
  | Reference path =>
      mkInfo (add path (references acc)) (unreferencedIdentifiers acc)
  | Unreferenced =>
      mkInfo (references acc) (unreferencedIdentifiers acc ++ [identifier])
  end.

Definition extractInfoFromIdentifiers
  (identifiers : list string) (allPaths : gset string) : Info :=
  foldl (visit allPaths) (mkInfo [] []) identifiers.

(** [self?.evaluationVersion]: [None] stands for [undefined]. *)
Variable extractIdentifiersFromCode : string → option Z → list string.

Definition extractInfoFromBinding
  (evaluationVersion : option Z) (script : string) (allPaths : gset string)
  : Info :=
  let identifiers := extractIdentifiersFromCode script evaluationVersion in
  extractInfoFromIdentifiers identifiers allPaths.

(** *** Vocabulary of the statements *)

(** The first [k] segments of [subpaths], at least two of them, print as a
    key of [allPaths]. *)
Definition knownPrefix
  (allPaths : gset string) (subpaths : list string) (k : nat) : Prop :=
  2 ≤ k ≤ length subpaths ∧ convertPathToString (take k subpaths) ∈ allPaths.

(** [k] is the longest known prefix of [subpaths]. *)
Definition longestKnownPrefix
  (allPaths : gset string) (subpaths : list string) (k : nat) : Prop :=
  knownPrefix allPaths subpaths k
  ∧ ∀ j, knownPrefix allPaths subpaths j → j ≤ k.

(** [extractInfoFromBinding] in the words of the specification: extraction of
    the identifiers of the code, then their classification. *)
Definition bindingInfo_composed
  (evaluationVersion : option Z) (allPaths : gset string) : string → Info :=
  (λ identifiers, extractInfoFromIdentifiers identifiers allPaths)
  ∘ (λ script, extractIdentifiersFromCode script evaluationVersion).

(** *** The loop *)

Lemma findSubpath_step allPaths subpaths :
  findSubpath allPaths subpaths =
    if decide (1 < length subpaths) then
      if hasOwnProperty allPaths (convertPathToString subpaths)
      then Some (convertPathToString subpaths)
      else findSubpath allPaths (pop subpaths)
    else None.
Proof.
  rewrite findSubpath_equation_1.
  destruct (decide (1 < length subpaths)); by simp findSubpath.
Qed.

Lemma knownPrefix_pop allPaths subpaths k :
  k < length subpaths →
  knownPrefix allPaths (pop subpaths) k ↔ knownPrefix allPaths subpaths k.
Proof.
  intros Hk. unfold knownPrefix.
  rewrite pop_length, pop_take, take_take.
  replace (k `min` (length subpaths - 1)) with k by lia.
  split; intros [Hle Hin]; (split; [lia|done]).
Qed.

Lemma knownPrefix_full allPaths subpaths :
  1 < length subpaths →
  knownPrefix allPaths subpaths (length subpaths)
  ↔ convertPathToString subpaths ∈ allPaths.
Proof.
  intros Hlen. unfold knownPrefix. rewrite firstn_all.
  split; [by intros [_ Hin]|]. intros Hin. split; [lia|done].
Qed.

(** The loop returns the string of the longest known prefix, and [None]
    exactly when there is no known prefix. *)
Lemma findSubpath_spec allPaths subpaths :
  match findSubpath allPaths subpaths with
  | Some current =>
      ∃ k, longestKnownPrefix allPaths subpaths k
           ∧ current = convertPathToString (take k subpaths)
  | None => ∀ k, ¬ knownPrefix allPaths subpaths k
  end.
Proof.
  remember (length subpaths) as n eqn:Hn. revert subpaths Hn.
  induction n as [n IH] using lt_wf_ind. intros subpaths ->.
  rewrite findSubpath_step.
  destruct (decide (1 < length subpaths)) as [Hlen|Hlen].
  - destruct (hasOwnProperty allPaths (convertPathToString subpaths)) eqn:Hown.
    + apply hasOwnProperty_true in Hown.
      exists (length subpaths). split; [split|].
      * by apply knownPrefix_full.
      * intros j [Hj _]. lia.
      * by rewrite firstn_all.
    + apply hasOwnProperty_false in Hown.
      assert (Hfull : ¬ knownPrefix allPaths subpaths (length subpaths))
        by (by rewrite knownPrefix_full).
      assert (Hshort : ∀ j, knownPrefix allPaths subpaths j
                            → j < length subpaths).
      { intros j Hj. destruct (decide (j = length subpaths)) as [->|Hne];
          [done|]. destruct Hj as [Hj _]. lia. }
      specialize (IH (length (pop subpaths))).
      rewrite pop_length in IH.
      specialize (IH ltac:(lia) (pop subpaths)). rewrite pop_length in IH.
      specialize (IH eq_refl).
      destruct (findSubpath allPaths (pop subpaths)) as [current|].
      * destruct IH as (k & [Hk Hmax] & ->).
        assert (Hklt : k < length subpaths).
        { destruct Hk as [Hk _]. rewrite pop_length in Hk. lia. }
        exists k. split; [split|].
        -- by apply knownPrefix_pop.
        -- intros j Hj. apply Hmax, knownPrefix_pop; auto.
        -- rewrite pop_take, take_take. f_equal. f_equal. lia.
      * intros k Hk. apply (IH k), knownPrefix_pop; auto.
  - intros k [Hk _]. lia.
Qed.

Lemma longestKnownPrefix_unique allPaths subpaths j k :
  longestKnownPrefix allPaths subpaths j →
  longestKnownPrefix allPaths subpaths k → j = k.
Proof.
  intros [Hj Hjmax] [Hk Hkmax].
  specialize (Hjmax _ Hk). specialize (Hkmax _ Hj). lia.
Qed.

(** *** One identifier *)

Lemma classify_known allPaths identifier :
  identifier ∈ allPaths →
  classify allPaths identifier = Reference identifier.
Proof.
  intros Hin. unfold classify.
  by rewrite (proj2 (hasOwnProperty_true _ _) Hin).
Qed.

Lemma classify_prefix allPaths identifier k :
  identifier ∉ allPaths →
  longestKnownPrefix allPaths (toPath identifier) k →
  classify allPaths identifier
  = Reference (convertPathToString (take k (toPath identifier))).
Proof.
  intros Hnot Hk. unfold classify.
  rewrite (proj2 (hasOwnProperty_false _ _) Hnot).
  pose proof (findSubpath_spec allPaths (toPath identifier)) as Hspec.
  destruct (findSubpath allPaths (toPath identifier)) as [current|].
  - destruct Hspec as (k' & Hk' & ->).
    by rewrite (longestKnownPrefix_unique _ _ _ _ Hk Hk').
  - destruct Hk as [Hk _]. by destruct (Hspec k).
Qed.

Lemma classify_unknown allPaths identifier :
  identifier ∉ allPaths →
  (∀ k, ¬ knownPrefix allPaths (toPath identifier) k) →
  classify allPaths identifier = Unreferenced.
Proof.
  intros Hnot Hnone. unfold classify.
  rewrite (proj2 (hasOwnProperty_false _ _) Hnot).
  pose proof (findSubpath_spec allPaths (toPath identifier)) as Hspec.
  destruct (findSubpath allPaths (toPath identifier)) as [current|]; [|done].
  destruct Hspec as (k & [Hk _] & _). by destruct (Hnone k).
Qed.

(** Every verdict has one of the three shapes above. *)
Lemma classify_inv allPaths identifier :
  match classify allPaths identifier with
  | Reference path =>
      (path = identifier ∧ identifier ∈ allPaths)
      ∨ ((identifier ∉ allPaths)
         ∧ ∃ k, longestKnownPrefix allPaths (toPath identifier) k
                ∧ path = convertPathToString (take k (toPath identifier)))
  | Unreferenced =>
      (identifier ∉ allPaths)
      ∧ ∀ k, ¬ knownPrefix allPaths (toPath identifier) k
  end.
Proof.
  unfold classify.
  destruct (hasOwnProperty allPaths identifier) eqn:Hown.
  - left. split; [done|]. by apply hasOwnProperty_true.
  - apply hasOwnProperty_false in Hown.
    pose proof (findSubpath_spec allPaths (toPath identifier)) as Hspec.
    destruct (findSubpath allPaths (toPath identifier)) as [current|]; auto.
Qed.

Lemma classify_Reference_known allPaths identifier path :
  classify allPaths identifier = Reference path → path ∈ allPaths.
Proof.
  intros Hc. pose proof (classify_inv allPaths identifier) as Hinv.
  rewrite Hc in Hinv.
  destruct Hinv as [[-> ?]|(_ & k & [[_ Hk] _] & ->)]; done.
Qed.

(** *** The accumulators *)

Lemma foldl_visit_references allPaths identifiers acc x :
  x ∈ references (foldl (visit allPaths) acc identifiers)
  ↔ x ∈ references acc
    ∨ ∃ identifier, identifier ∈ identifiers
                    ∧ classify allPaths identifier = Reference x.
Proof.
  revert acc. induction identifiers as [|i identifiers IH]; intros acc; simpl.
  - split; [auto|]. intros [?|(? & ?%elem_of_nil & _)]; done.
  - rewrite IH. unfold visit.
    destruct (classify allPaths i) as [path|] eqn:Hc; simpl.
    + rewrite elem_of_add. split.
      * intros [[->|?]|(i' & ? & ?)]; eauto.
        -- right. exists i. split; [left|done].
        -- right. exists i'. split; [by right|done].
      * intros [?|(i' & [->|?]%elem_of_cons & Hi')]; eauto.
        left. left. congruence.
    + split.
      * intros [?|(i' & ? & ?)]; eauto.
        right. exists i'. split; [by right|done].
      * intros [?|(i' & [->|?]%elem_of_cons & Hi')]; eauto. congruence.
Qed.

Lemma foldl_visit_unreferenced allPaths identifiers acc x :
  x ∈ unreferencedIdentifiers (foldl (visit allPaths) acc identifiers)
  ↔ x ∈ unreferencedIdentifiers acc
    ∨ (x ∈ identifiers ∧ classify allPaths x = Unreferenced).
Proof.
  revert acc. induction identifiers as [|i identifiers IH]; intros acc; simpl.
  - split; [auto|]. intros [?|[?%elem_of_nil _]]; done.
  - rewrite IH. unfold visit.
    destruct (classify allPaths i) as [path|] eqn:Hc; simpl.
    + split.
      * intros [?|[? ?]]; eauto. right. split; [by right|done].
      * intros [?|[[->|?]%elem_of_cons ?]]; eauto. congruence.
    + rewrite elem_of_app, list_elem_of_singleton. split.
      * intros [[?| ->]|[? ?]]; eauto.
        -- right. split; [left|done].
        -- right. split; [by right|done].
      * intros [?|[[->|?]%elem_of_cons ?]]; eauto.
Qed.

Lemma foldl_visit_NoDup allPaths identifiers acc :
  NoDup (references acc) →
  NoDup (references (foldl (visit allPaths) acc identifiers)).
Proof.
  revert acc. induction identifiers as [|i identifiers IH]; intros acc Hnd;
    simpl; [done|].
  apply IH. unfold visit. destruct (classify allPaths i); simpl; [|done].
  by apply NoDup_add.
Qed.

(** *** The results of [extractInfoFromIdentifiers] *)

(** C1. Every element of the [references] returned by
    [extractInfoFromIdentifiers] is a key of [allPaths] and no entry occurs
    twice; the same holds for the [references] returned by
    [extractInfoFromBinding]. *)
Theorem references_known_and_distinct
  identifiers evaluationVersion script allPaths :
  (Forall (λ path, path ∈ allPaths)
     (references (extractInfoFromIdentifiers identifiers allPaths))
   ∧ NoDup (references (extractInfoFromIdentifiers identifiers allPaths)))
  ∧ (Forall (λ path, path ∈ allPaths)
       (references (extractInfoFromBinding evaluationVersion script allPaths))
     ∧ NoDup
         (references (extractInfoFromBinding evaluationVersion script allPaths))).
Proof.
  assert (Hall : ∀ ids,
    Forall (λ path, path ∈ allPaths)
      (references (extractInfoFromIdentifiers ids allPaths))
    ∧ NoDup (references (extractInfoFromIdentifiers ids allPaths))).
  { intros ids. unfold extractInfoFromIdentifiers. split.
    - apply Forall_forall. intros path Hpath.
      apply foldl_visit_references in Hpath.
      destruct Hpath as [Hnil|(identifier & _ & Hc)].
      + by apply elem_of_nil in Hnil.
      + by apply classify_Reference_known in Hc.
    - apply foldl_visit_NoDup. simpl. apply NoDup_nil_2. }
  split; [apply Hall|]. unfold extractInfoFromBinding. apply Hall.
Qed.

(** C2. Each input identifier is classified: either a reference derived from
    it is among the returned [references] (the identifier itself when it is
    a key of [allPaths], or the string form of a prefix of its segment path),
    or the identifier itself is among the returned
    [unreferencedIdentifiers]. *)
Theorem identifiers_classified identifiers allPaths identifier :
  identifier ∈ identifiers →
  (identifier ∈ allPaths
   ∧ identifier ∈ references (extractInfoFromIdentifiers identifiers allPaths))
  ∨ (∃ k, 2 ≤ k ≤ length (toPath identifier)
          ∧ convertPathToString (take k (toPath identifier))
              ∈ references (extractInfoFromIdentifiers identifiers allPaths))
  ∨ identifier
      ∈ unreferencedIdentifiers (extractInfoFromIdentifiers identifiers allPaths).
Proof.
  intros Hin. unfold extractInfoFromIdentifiers.
  pose proof (classify_inv allPaths identifier) as Hinv.
  destruct (classify allPaths identifier) as [path|] eqn:Hc.
  - assert (Hpath : path ∈ references
                      (foldl (visit allPaths) (mkInfo [] []) identifiers)).
    { apply foldl_visit_references. right. eauto. }
    destruct Hinv as [[-> Hknown]|(_ & k & [[Hk _] _] & ->)].
    + left. done.
    + right. left. eauto.
  - right. right. apply foldl_visit_unreferenced. right. done.
Qed.

(** C3. An identifier that is not a key of [allPaths], but some prefix of at
    least two segments of whose path prints as a key of [allPaths], adds to
    [references] exactly the string of the longest such prefix, and is not
    added to [unreferencedIdentifiers]. *)
Theorem longest_prefix_referenced identifiers allPaths identifier :
  identifier ∈ identifiers →
  identifier ∉ allPaths →
  (∃ j, knownPrefix allPaths (toPath identifier) j) →
  ∃ k, longestKnownPrefix allPaths (toPath identifier) k
       ∧ (∀ acc, visit allPaths acc identifier
                 = mkInfo
                     (add (convertPathToString (take k (toPath identifier)))
                        (references acc))
                     (unreferencedIdentifiers acc))
       ∧ convertPathToString (take k (toPath identifier))
           ∈ references (extractInfoFromIdentifiers identifiers allPaths)
       ∧ identifier
           ∉ unreferencedIdentifiers
               (extractInfoFromIdentifiers identifiers allPaths).
Proof.
  intros Hin Hnot [j Hj].
  pose proof (classify_inv allPaths identifier) as Hinv.
  destruct (classify allPaths identifier) as [path|] eqn:Hc.
  - destruct Hinv as [[_ Hknown]|(_ & k & Hk & ->)]; [done|].
    exists k. split_and!; [done| | |].
    + intros acc. unfold visit. by rewrite Hc.
    + apply foldl_visit_references. right. eauto.
    + intros Hun. apply foldl_visit_unreferenced in Hun.
      destruct Hun as [Hnil|[_ Hc']]; [by apply elem_of_nil in Hnil|].
      congruence.
  - destruct Hinv as [_ Hnone]. by destruct (Hnone j).
Qed.

(** C4. An identifier that is a key of [allPaths] is added to [references]
    as it stands and is never added to [unreferencedIdentifiers]. *)
Theorem known_identifier_verbatim identifiers allPaths identifier :
  identifier ∈ identifiers →
  identifier ∈ allPaths →
  (∀ acc, visit allPaths acc identifier
          = mkInfo (add identifier (references acc))
              (unreferencedIdentifiers acc))
  ∧ identifier ∈ references (extractInfoFromIdentifiers identifiers allPaths)
  ∧ identifier
      ∉ unreferencedIdentifiers (extractInfoFromIdentifiers identifiers allPaths).
Proof.
  intros Hin Hknown. pose proof (classify_known _ _ Hknown) as Hc.
  split_and!.
  - intros acc. unfold visit. by rewrite Hc.
  - apply foldl_visit_references. right. eauto.
  - intros Hun. apply foldl_visit_unreferenced in Hun.
    destruct Hun as [Hnil|[_ Hc']]; [by apply elem_of_nil in Hnil|].
    congruence.
Qed.

(** C5. A multi-segment identifier that is not a key of [allPaths] and none
    of whose prefixes of at least two segments prints as a key of [allPaths]
    is reported as unreferenced and contributes no reference, whether or not
    its top-level segment is a key of [allPaths]. *)
Theorem top_level_entity_not_referenced identifiers allPaths identifier :
  identifier ∈ identifiers →
  1 < length (toPath identifier) →
  identifier ∉ allPaths →
  (∀ k, ¬ knownPrefix allPaths (toPath identifier) k) →
  (∀ acc, visit allPaths acc identifier
          = mkInfo (references acc)
              (unreferencedIdentifiers acc ++ [identifier]))
  ∧ identifier
      ∈ unreferencedIdentifiers (extractInfoFromIdentifiers identifiers allPaths).
Proof.
  intros Hin _ Hnot Hnone.
  pose proof (classify_unknown _ _ Hnot Hnone) as Hc. split.
  - intros acc. unfold visit. by rewrite Hc.
  - apply foldl_visit_unreferenced. right. done.
Qed.

(** C8. [extractInfoFromBinding] returns what [extractInfoFromIdentifiers]
    returns on the identifiers that [extractIdentifiersFromCode] finds in the
    script under the current evaluation version: it is the composition of
    the two. *)
Theorem extractInfoFromBinding_composition evaluationVersion script allPaths :
  extractInfoFromBinding evaluationVersion script allPaths
  = extractInfoFromIdentifiers
      (extractIdentifiersFromCode script evaluationVersion) allPaths
  ∧ extractInfoFromBinding evaluationVersion script allPaths
    = bindingInfo_composed evaluationVersion allPaths script.
Proof. split; reflexivity. Qed.

(** *** Further properties of [extractInfoFromIdentifiers] *)

Lemma classify_Unreferenced_iff allPaths identifier :
  classify allPaths identifier = Unreferenced
  ↔ (identifier ∉ allPaths)
    ∧ ∀ k, ¬ knownPrefix allPaths (toPath identifier) k.
Proof.
  split.
  - intros Hc. pose proof (classify_inv allPaths identifier) as Hinv.
    by rewrite Hc in Hinv.
  - intros [Hnot Hnone]. by apply classify_unknown.
Qed.

(** Whether the callback pushes [identifier] on [unreferencedIdentifiers]. *)
Definition unresolved (allPaths : gset string) (identifier : string) : bool :=
  match classify allPaths identifier with
  | Reference _ => false
  | Unreferenced => true
  end.

Lemma unresolved_true allPaths identifier :
  unresolved allPaths identifier = true
  ↔ classify allPaths identifier = Unreferenced.
Proof.
  unfold unresolved. destruct (classify allPaths identifier); split; done.
Qed.

Lemma foldl_visit_unreferenced_eq allPaths identifiers acc :
  unreferencedIdentifiers (foldl (visit allPaths) acc identifiers)
  = (unreferencedIdentifiers acc
       ++ List.filter (unresolved allPaths) identifiers)%list.
Proof.
  revert acc. induction identifiers as [|i identifiers IH]; intros acc; simpl.
  - by rewrite app_nil_r.
  - rewrite IH. unfold visit, unresolved.
    destruct (classify allPaths i); simpl; [done|].
    by rewrite <- app_assoc.
Qed.

Lemma foldl_visit_references_prefix allPaths identifiers acc :
  references acc `prefix_of`
    references (foldl (visit allPaths) acc identifiers).
Proof.
  revert acc. induction identifiers as [|i identifiers IH]; intros acc; simpl.
  - done.
  - etrans; [|apply IH]. unfold visit.
    destruct (classify allPaths i); simpl; [|done].
    unfold add. case_bool_decide; [done|]. by apply prefix_app_r.
Qed.

Lemma foldl_visit_references_length allPaths identifiers acc :
  length (references (foldl (visit allPaths) acc identifiers))
  + length (unreferencedIdentifiers (foldl (visit allPaths) acc identifiers))
  ≤ length (references acc) + length (unreferencedIdentifiers acc)
    + length identifiers.
Proof.
  revert acc. induction identifiers as [|i identifiers IH]; intros acc; simpl.
  - lia.
  - etrans; [apply IH|]. unfold visit.
    destruct (classify allPaths i); simpl.
    + unfold add. case_bool_decide; [lia|]. rewrite length_app. simpl. lia.
    + rewrite length_app. simpl. lia.
Qed.

(** Identifiers whose verdicts are already recorded leave [references] as it
    is. *)
Lemma foldl_visit_references_absorb allPaths identifiers acc :
  (∀ identifier path,
     identifier ∈ identifiers →
     classify allPaths identifier = Reference path →
     path ∈ references acc) →
  references (foldl (visit allPaths) acc identifiers) = references acc.
Proof.
  revert acc. induction identifiers as [|i identifiers IH]; intros acc Hacc;
    simpl; [done|].
  assert (Hstep : references (visit allPaths acc i) = references acc).
  { unfold visit. destruct (classify allPaths i) as [path|] eqn:Hc; [|done].
    simpl. unfold add. rewrite bool_decide_eq_true_2; [done|].
    apply (Hacc i); [left|done]. }
  rewrite IH; [done|]. intros identifier path Hin Hc. rewrite Hstep.
  apply (Hacc identifier); [by right|done].
Qed.

Lemma classify_Unreferenced_mono allPaths allPaths' identifier :
  allPaths ⊆ allPaths' →
  classify allPaths' identifier = Unreferenced →
  classify allPaths identifier = Unreferenced.
Proof.
  intros Hsub. rewrite !classify_Unreferenced_iff. intros [Hnot Hnone].
  split.
  - intros Hin. apply Hnot, Hsub, Hin.
  - intros k [Hk Hin]. apply (Hnone k). split; [done|]. apply Hsub, Hin.
Qed.

(** X1. With no known path at all nothing is referenced: every identifier
    comes back in [unreferencedIdentifiers], in the order given. *)
Theorem no_paths_all_unreferenced identifiers :
  extractInfoFromIdentifiers identifiers ∅ = mkInfo [] identifiers.
Proof.
  assert (Hall : ∀ identifier, unresolved ∅ identifier = true).
  { intros identifier. apply unresolved_true, classify_Unreferenced_iff.
    split; [apply not_elem_of_empty|].
    intros k [_ Hin]. by apply not_elem_of_empty in Hin. }
  pose proof (foldl_visit_unreferenced_eq ∅ identifiers (mkInfo [] [])) as Hun.
  pose proof (foldl_visit_references_absorb ∅ identifiers (mkInfo [] [])) as Hre.
  unfold extractInfoFromIdentifiers.
  destruct (foldl (visit ∅) (mkInfo [] []) identifiers) as [refs unrefs].
  simpl in *. f_equal.
  - apply Hre. intros identifier path _ Hc.
    pose proof (Hall identifier) as Hu. apply unresolved_true in Hu.
    congruence.
  - rewrite Hun. clear Hun Hre.
    induction identifiers as [|i identifiers IH]; simpl; [done|].
    by rewrite Hall, IH.
Qed.

(** X2. [unreferencedIdentifiers] is the input array restricted to the
    identifiers that resolve to nothing (not a key of [allPaths] and without
    a known prefix of at least two segments): the order of the input and its
    repetitions are kept. *)
Theorem unreferenced_in_input_order identifiers allPaths :
  unreferencedIdentifiers (extractInfoFromIdentifiers identifiers allPaths)
  = List.filter (unresolved allPaths) identifiers
  ∧ Forall (λ identifier,
              unresolved allPaths identifier = true
              ↔ (identifier ∉ allPaths)
                ∧ ∀ k, ¬ knownPrefix allPaths (toPath identifier) k)
      identifiers.
Proof.
  split.
  - unfold extractInfoFromIdentifiers.
    by rewrite foldl_visit_unreferenced_eq.
  - apply Forall_forall. intros identifier _.
    rewrite unresolved_true. apply classify_Unreferenced_iff.
Qed.

(** X3. No string is returned both as a reference and as an unreferenced
    identifier. *)
Theorem references_disjoint_unreferenced identifiers allPaths :
  Forall (λ path,
            path ∉ unreferencedIdentifiers
                     (extractInfoFromIdentifiers identifiers allPaths))
    (references (extractInfoFromIdentifiers identifiers allPaths)).
Proof.
  apply Forall_forall. intros path Href Hun.
  unfold extractInfoFromIdentifiers in *.
  apply foldl_visit_references in Href.
  destruct Href as [Hnil|(identifier & _ & Hc)];
    [by apply elem_of_nil in Hnil|].
  apply classify_Reference_known in Hc.
  apply foldl_visit_unreferenced in Hun.
  destruct Hun as [Hnil|[_ Hc']]; [by apply elem_of_nil in Hnil|].
  by apply classify_Unreferenced_iff in Hc' as [Hnot _].
Qed.

(** X4. Analysing two arrays of identifiers one after the other: the
    unreferenced identifiers are concatenated, the references of the first
    array stay in front in their order, and a path is referenced exactly
    when one of the two arrays references it. *)
Theorem extractInfoFromIdentifiers_app identifiers1 identifiers2 allPaths :
  unreferencedIdentifiers
    (extractInfoFromIdentifiers (identifiers1 ++ identifiers2) allPaths)
  = (unreferencedIdentifiers
       (extractInfoFromIdentifiers identifiers1 allPaths)
     ++ unreferencedIdentifiers
          (extractInfoFromIdentifiers identifiers2 allPaths))%list
  ∧ references (extractInfoFromIdentifiers identifiers1 allPaths)
      `prefix_of`
      references
        (extractInfoFromIdentifiers (identifiers1 ++ identifiers2) allPaths)
  ∧ Forall (λ path,
              path ∈ references
                       (extractInfoFromIdentifiers identifiers1 allPaths)
              ∨ path ∈ references
                         (extractInfoFromIdentifiers identifiers2 allPaths))
      (references
         (extractInfoFromIdentifiers (identifiers1 ++ identifiers2) allPaths))
  ∧ Forall (λ path,
              path ∈ references
                       (extractInfoFromIdentifiers
                          (identifiers1 ++ identifiers2) allPaths))
      (references (extractInfoFromIdentifiers identifiers1 allPaths)
       ++ references (extractInfoFromIdentifiers identifiers2 allPaths))%list.
Proof.
  unfold extractInfoFromIdentifiers. rewrite foldl_app. split_and!.
  - rewrite !foldl_visit_unreferenced_eq. simpl. done.
  - apply foldl_visit_references_prefix.
  - apply Forall_forall. intros path Hpath.
    apply foldl_visit_references in Hpath.
    destruct Hpath as [?|(identifier & Hin & Hc)]; [by left|].
    right. apply foldl_visit_references. right. eauto.
  - apply Forall_forall. intros path Hpath.
    apply foldl_visit_references. apply elem_of_app in Hpath.
    destruct Hpath as [?|Hpath]; [by left|].
    apply foldl_visit_references in Hpath.
    destruct Hpath as [Hnil|?]; [by apply elem_of_nil in Hnil|by right].
Qed.

(** X5. Identifiers that were already analysed add nothing to
    [references]: repeating identifiers at the end of the array leaves the
    references as they were. *)
Theorem repeated_identifiers_add_no_reference
  identifiers repeated allPaths :
  repeated ⊆ identifiers →
  references
    (extractInfoFromIdentifiers (identifiers ++ repeated) allPaths)
  = references (extractInfoFromIdentifiers identifiers allPaths).
Proof.
  intros Hsub. unfold extractInfoFromIdentifiers. rewrite foldl_app.
  apply foldl_visit_references_absorb. intros identifier path Hin Hc.
  apply foldl_visit_references. right. exists identifier.
  split; [by apply Hsub|done].
Qed.

(** X6. Making more paths known never makes an identifier unreferenced:
    what is unreferenced under the larger [allPaths] is, in the same order,
    among what is unreferenced under the smaller one. *)
Theorem unreferenced_shrinks_with_more_paths identifiers allPaths allPaths' :
  allPaths ⊆ allPaths' →
  unreferencedIdentifiers (extractInfoFromIdentifiers identifiers allPaths')
    `sublist_of`
    unreferencedIdentifiers (extractInfoFromIdentifiers identifiers allPaths).
Proof.
  intros Hsub. unfold extractInfoFromIdentifiers.
  rewrite !foldl_visit_unreferenced_eq. simpl.
  induction identifiers as [|i identifiers IH]; simpl; [done|].
  destruct (unresolved allPaths' i) eqn:Hbig.
  - apply unresolved_true in Hbig.
    apply (classify_Unreferenced_mono _ _ _ Hsub) in Hbig.
    apply unresolved_true in Hbig. rewrite Hbig. by apply sublist_skip.
  - destruct (unresolved allPaths i); [by apply sublist_cons|done].
Qed.

(** X7. An identifier of at most one segment is either a key of [allPaths]
    itself or unreferenced: its path is never printed and looked up. *)
Theorem single_segment_identifier identifiers allPaths identifier :
  identifier ∈ identifiers →
  length (toPath identifier) ≤ 1 →
  identifier ∉ allPaths →
  identifier
    ∈ unreferencedIdentifiers (extractInfoFromIdentifiers identifiers allPaths)
  ∧ ∀ acc, visit allPaths acc identifier
           = mkInfo (references acc)
               (unreferencedIdentifiers acc ++ [identifier]).
Proof.
  intros Hin Hlen Hnot.
  assert (Hc : classify allPaths identifier = Unreferenced).
  { apply classify_Unreferenced_iff. split; [done|].
    intros k [Hk _]. lia. }
  split.
  - apply foldl_visit_unreferenced. right. done.
  - intros acc. unfold visit. by rewrite Hc.
Qed.

(** X8. Each identifier yields at most one entry: the two returned arrays
    together are no longer than the input, and there are no more references
    than known paths. *)
Theorem extractInfoFromIdentifiers_sizes identifiers allPaths :
  length (references (extractInfoFromIdentifiers identifiers allPaths))
  + length
      (unreferencedIdentifiers (extractInfoFromIdentifiers identifiers allPaths))
  ≤ length identifiers
  ∧ length (references (extractInfoFromIdentifiers identifiers allPaths))
    ≤ size allPaths.
Proof.
  split.
  - unfold extractInfoFromIdentifiers.
    etrans; [apply foldl_visit_references_length|]. simpl. lia.
  - assert (Hnd : NoDup
      (references (extractInfoFromIdentifiers identifiers allPaths))).
    { unfold extractInfoFromIdentifiers. apply foldl_visit_NoDup.
      simpl. apply NoDup_nil_2. }
    rewrite <- (size_list_to_set
      (references (extractInfoFromIdentifiers identifiers allPaths))
      (C := gset string)) by done.
    apply subseteq_size. intros path Hpath.
    apply elem_of_list_to_set in Hpath.
    unfold extractInfoFromIdentifiers in Hpath.
    apply foldl_visit_references in Hpath.
    destruct Hpath as [Hnil|(identifier & _ & Hc)];
      [by apply elem_of_nil in Hnil|].
    by apply classify_Reference_known in Hc.
Qed.

End WithPathSyntax.

Example toPath_sample :
  Syntax.toPath "Api1.data[0].name" = ["Api1"; "data"; "0"; "name"].
Proof. reflexivity. Qed.

Example convertPathToString_sample :
  Syntax.convertPathToString ["Api1"; "data"; "0"; "name"] = "Api1.data[0].name".
Proof. reflexivity. Qed.

(** The example of the source's doc comment: for the identifiers
    [unknownEntity.name] and [Api1.name] with [Api1.name] a known path. *)
Example extractInfoFromIdentifiers_doc_example :
  extractInfoFromIdentifiers Syntax.toPath Syntax.convertPathToString
    ["unknownEntity.name"; "Api1.name"] {[ "Api1"; "Api1.name" ]}
  = mkInfo ["Api1.name"] ["unknownEntity.name"].
Proof. vm_compute. reflexivity. Qed.

(** *** The theorems on a concrete page

    A page with a table and an input; the binding under analysis mentions
    four identifiers. *)

Definition samplePaths : gset string :=
  {[ "Table1"; "Table1.selectedRow"; "Input1"; "Input1.text" ]}.

Definition sampleIdentifiers : list string :=
  [ "Table1.selectedRow.id"; "Input1.text"; "Table1.foo";
    "unknownEntity.name" ].

Example extractInfoFromIdentifiers_sample :
  extractInfoFromIdentifiers Syntax.toPath Syntax.convertPathToString
    sampleIdentifiers samplePaths
  = mkInfo ["Table1.selectedRow"; "Input1.text"]
           ["Table1.foo"; "unknownEntity.name"].
Proof. vm_compute. reflexivity. Qed.

Ltac known_path := apply hasOwnProperty_true; vm_compute; reflexivity.
Ltac unknown_path := apply hasOwnProperty_false; vm_compute; reflexivity.
Ltac listed := apply list_elem_of_In; simpl; tauto.

Lemma identifiers_classified_witness :
  "Table1.selectedRow.id" ∈ sampleIdentifiers
  ∧ (("Table1.selectedRow.id" ∈ samplePaths
      ∧ "Table1.selectedRow.id"
          ∈ references
              (extractInfoFromIdentifiers Syntax.toPath
                 Syntax.convertPathToString sampleIdentifiers samplePaths))
     ∨ (∃ k, 2 ≤ k ≤ length (Syntax.toPath "Table1.selectedRow.id")
             ∧ Syntax.convertPathToString
                 (take k (Syntax.toPath "Table1.selectedRow.id"))
                 ∈ references
                     (extractInfoFromIdentifiers Syntax.toPath
                        Syntax.convertPathToString sampleIdentifiers
                        samplePaths))
     ∨ "Table1.selectedRow.id"
         ∈ unreferencedIdentifiers
             (extractInfoFromIdentifiers Syntax.toPath
                Syntax.convertPathToString sampleIdentifiers samplePaths)).
Proof.
  split; [listed|].
  apply (identifiers_classified Syntax.toPath Syntax.convertPathToString
           sampleIdentifiers samplePaths "Table1.selectedRow.id").
  listed.
Defined.

Lemma longest_prefix_referenced_witness :
  "Table1.selectedRow.id" ∈ sampleIdentifiers
  ∧ ("Table1.selectedRow.id" ∉ samplePaths)
  ∧ knownPrefix Syntax.convertPathToString samplePaths
      (Syntax.toPath "Table1.selectedRow.id") 2
  ∧ ∃ k, longestKnownPrefix Syntax.convertPathToString samplePaths
           (Syntax.toPath "Table1.selectedRow.id") k
         ∧ (∀ acc, visit Syntax.toPath Syntax.convertPathToString samplePaths
                     acc "Table1.selectedRow.id"
                   = mkInfo
                       (add (Syntax.convertPathToString
                               (take k (Syntax.toPath "Table1.selectedRow.id")))
                          (references acc))
                       (unreferencedIdentifiers acc))
         ∧ Syntax.convertPathToString
             (take k (Syntax.toPath "Table1.selectedRow.id"))
             ∈ references
                 (extractInfoFromIdentifiers Syntax.toPath
                    Syntax.convertPathToString sampleIdentifiers samplePaths)
         ∧ "Table1.selectedRow.id"
             ∉ unreferencedIdentifiers
                 (extractInfoFromIdentifiers Syntax.toPath
                    Syntax.convertPathToString sampleIdentifiers samplePaths).
Proof.
  assert (Hknown : knownPrefix Syntax.convertPathToString samplePaths
                     (Syntax.toPath "Table1.selectedRow.id") 2).
  { split; [simpl; lia|known_path]. }
  split_and!; [listed|unknown_path|exact Hknown|].
  apply (longest_prefix_referenced Syntax.toPath Syntax.convertPathToString
           sampleIdentifiers samplePaths "Table1.selectedRow.id").
  - listed.
  - unknown_path.
  - exists 2. exact Hknown.
Defined.

Lemma known_identifier_verbatim_witness :
  "Input1.text" ∈ sampleIdentifiers
  ∧ "Input1.text" ∈ samplePaths
  ∧ (∀ acc, visit Syntax.toPath Syntax.convertPathToString samplePaths acc
              "Input1.text"
            = mkInfo (add "Input1.text" (references acc))
                (unreferencedIdentifiers acc))
  ∧ "Input1.text"
      ∈ references
          (extractInfoFromIdentifiers Syntax.toPath Syntax.convertPathToString
             sampleIdentifiers samplePaths)
  ∧ "Input1.text"
      ∉ unreferencedIdentifiers
          (extractInfoFromIdentifiers Syntax.toPath Syntax.convertPathToString
             sampleIdentifiers samplePaths).
Proof.
  split; [listed|]. split; [known_path|].
  apply (known_identifier_verbatim Syntax.toPath Syntax.convertPathToString
           sampleIdentifiers samplePaths "Input1.text").
  - listed.
  - known_path.
Defined.

Lemma sample_no_known_prefix k :
  ¬ knownPrefix Syntax.convertPathToString samplePaths
      (Syntax.toPath "Table1.foo") k.
Proof.
  intros [Hk Hin]. assert (k = 2) as -> by (simpl in Hk; lia).
  revert Hin. unknown_path.
Qed.

Lemma top_level_entity_not_referenced_witness :
  "Table1.foo" ∈ sampleIdentifiers
  ∧ 1 < length (Syntax.toPath "Table1.foo")
  ∧ ("Table1.foo" ∉ samplePaths)
  ∧ (∀ k, ¬ knownPrefix Syntax.convertPathToString samplePaths
              (Syntax.toPath "Table1.foo") k)
  ∧ Syntax.convertPathToString (take 1 (Syntax.toPath "Table1.foo"))
      ∈ samplePaths
  ∧ (∀ acc, visit Syntax.toPath Syntax.convertPathToString samplePaths acc
              "Table1.foo"
            = mkInfo (references acc)
                (unreferencedIdentifiers acc ++ ["Table1.foo"]))
  ∧ "Table1.foo"
      ∈ unreferencedIdentifiers
          (extractInfoFromIdentifiers Syntax.toPath Syntax.convertPathToString
             sampleIdentifiers samplePaths).
Proof.
  split_and!; [listed|simpl; lia|unknown_path|apply sample_no_known_prefix
              |known_path|..];
    apply (top_level_entity_not_referenced Syntax.toPath
             Syntax.convertPathToString sampleIdentifiers samplePaths
             "Table1.foo");
    first [listed|simpl; lia|unknown_path|apply sample_no_known_prefix].
Defined.

Lemma repeated_identifiers_add_no_reference_witness :
  ["Input1.text"; "Table1.selectedRow.id"] ⊆ sampleIdentifiers
  ∧ references
      (extractInfoFromIdentifiers Syntax.toPath Syntax.convertPathToString
         (sampleIdentifiers ++ ["Input1.text"; "Table1.selectedRow.id"])
         samplePaths)
    = references
        (extractInfoFromIdentifiers Syntax.toPath Syntax.convertPathToString
           sampleIdentifiers samplePaths).
Proof.
  assert (Hsub : ["Input1.text"; "Table1.selectedRow.id"] ⊆ sampleIdentifiers).
  { intros x Hx. apply list_elem_of_In in Hx. apply list_elem_of_In.
    simpl in *. intuition. }
  split; [exact Hsub|].
  apply (repeated_identifiers_add_no_reference Syntax.toPath
           Syntax.convertPathToString sampleIdentifiers
           ["Input1.text"; "Table1.selectedRow.id"] samplePaths Hsub).
Defined.

Lemma unreferenced_shrinks_with_more_paths_witness :
  ({[ "Table1" ]} : gset string) ⊆ samplePaths
  ∧ unreferencedIdentifiers
      (extractInfoFromIdentifiers Syntax.toPath Syntax.convertPathToString
         sampleIdentifiers samplePaths)
      `sublist_of`
      unreferencedIdentifiers
        (extractInfoFromIdentifiers Syntax.toPath Syntax.convertPathToString
           sampleIdentifiers {[ "Table1" ]}).
Proof.
  assert (Hsub : ({[ "Table1" ]} : gset string) ⊆ samplePaths).
  { intros x ->%elem_of_singleton. known_path. }
  split; [exact Hsub|].
  apply (unreferenced_shrinks_with_more_paths Syntax.toPath
           Syntax.convertPathToString sampleIdentifiers {[ "Table1" ]}
           samplePaths Hsub).
Defined.

Lemma single_segment_identifier_witness :
  "Button1" ∈ ["Button1"; "Input1.text"]
  ∧ length (Syntax.toPath "Button1") ≤ 1
  ∧ ("Button1" ∉ samplePaths)
  ∧ "Button1"
      ∈ unreferencedIdentifiers
          (extractInfoFromIdentifiers Syntax.toPath Syntax.convertPathToString
             ["Button1"; "Input1.text"] samplePaths)
  ∧ ∀ acc, visit Syntax.toPath Syntax.convertPathToString samplePaths acc
             "Button1"
           = mkInfo (references acc) (unreferencedIdentifiers acc ++ ["Button1"]).
Proof.
  split; [listed|]. split; [simpl; lia|]. split; [unknown_path|].
  apply (single_segment_identifier Syntax.toPath Syntax.convertPathToString
           ["Button1"; "Input1.text"] samplePaths "Button1").
  - listed.
  - simpl; lia.
  - unknown_path.
Defined.

End DependencyMap.

(** ** widgets/NumberSliderWidget/utils.ts

    JavaScript numbers are read as exact rationals. A division by zero has
    no rational value (the code goes on with [NaN] or an infinity there), so
    a computation that divides by zero ends in [DivisionByZero], and so does
    everything that depends on it. *)

Module NumberSlider.

Local Open Scope Q_scope.

Inductive Outcome :=
| Value (q : Q)
| DivisionByZero
| RangeError.

Definition bind (o : Outcome) (k : Q → Outcome) : Outcome :=
  match o with
  | Value q => k q
  | DivisionByZero => DivisionByZero
  | RangeError => RangeError
  end.

Notation "'let!' x ':=' o 'in' k" := (bind o (λ x, k))
  (at level 10, x name, o at level 100, k at level 200).

(** [x / y] *)
Definition divide (x y : Q) : Outcome :=
  if Qeq_bool y 0 then DivisionByZero else Value (x / y).

(** [Math.round]: the nearest integer, a half rounding up. *)
Definition Math_round (x : Q) : Q := inject_Z (Qfloor (x + (1 # 2))).

(** [Number(x.toFixed(fractionDigits))], after ECMA-262: a [RangeError]
    outside 0..100; a number of magnitude [10^21] or more is printed in full
    and read back unchanged; otherwise the magnitude is rounded to
    [fractionDigits] decimals, a half rounding up, and the sign restored. *)
Definition Number_toFixed (x : Q) (fractionDigits : Z) : Outcome :=
  if ((fractionDigits <? 0) || (100 <? fractionDigits))%Z then RangeError
  else if Qle_bool (inject_Z (10 ^ 21)) (Qabs x) then Value x
  else
    let scale := inject_Z (10 ^ fractionDigits) in
    let n := inject_Z (Qfloor (Qabs x * scale + (1 # 2))) in
    Value ((if Qlt_le_dec x 0 then - n else n) / scale).

(** [getPosition({ max, min, value })] *)
Definition getPosition (max min value : Q) : Outcome :=
  let! ratio := divide (value - min) (max - min) in
  let position := ratio * 100 in
  Value (Qmin (Qmax position 0) 100).

(** [clamp(value, min, max)] *)
Definition clamp (value min max : Q) : Q := Qmin (Qmax value min) max.

(** The local [left] of [getChangeValue]; [!containerWidth] holds for
    [undefined] (here [None]) and for [0]. *)
Definition getLeft (containerWidth : option Q) (value : Q) : Outcome :=
  match containerWidth with
  | None => Value value
  | Some width =>
      if Qeq_bool width 0 then Value value
      else divide (Qmin (Qmax value 0) width) width
  end.

(** [getChangeValue({ containerWidth, max, min, precision, step, value })];
    [precision], a number of decimals, is an integer when it is given. *)
Definition getChangeValue
  (containerWidth : option Q) (max min : Q) (precision : option Z)
  (step value : Q) : Outcome :=
  let! left := getLeft containerWidth value in
  let dx := left * (max - min) in
  let! scaled :=
    if negb (Qeq_bool dx 0)
    then (let! steps := divide dx step in Value (Math_round steps * step))
    else Value 0 in
  let nextValue := scaled + min in
  match precision with
  | Some fractionDigits => Number_toFixed nextValue fractionDigits
  | None => Value nextValue
  end.

(** *** Vocabulary of the statements *)

(** [x] clamped into the closed interval from [lo] to [hi]. *)
Definition clampedInto (lo hi x : Q) : Q :=
  if Qlt_le_dec x lo then lo else if Qlt_le_dec hi x then hi else x.

Example getPosition_sample :
  match getPosition 10 0 (5 # 2) with
  | Value position => position == 25
  | _ => False
  end.
Proof. vm_compute. reflexivity. Qed.

Example getChangeValue_sample :
  match getChangeValue (Some 60) 100 0 None 5 31 with
  | Value v => v == 50
  | _ => False
  end.
Proof. vm_compute. reflexivity. Qed.

(** *** Clamping *)

Lemma divide_nonzero x y : ¬ y == 0 → divide x y = Value (x / y).
Proof.
  intros Hy. unfold divide. destruct (Qeq_bool y 0) eqn:E; [|reflexivity].
  apply Qeq_bool_eq in E. contradiction.
Qed.

Lemma clamp_bounds value lo hi :
  lo <= hi → lo <= clamp value lo hi ∧ clamp value lo hi <= hi.
Proof.
  intros Hle. unfold clamp. split.
  - apply Q.min_glb; [apply Q.le_max_r|exact Hle].
  - apply Q.le_min_r.
Qed.

Lemma clamp_clampedInto value lo hi :
  lo <= hi → clamp value lo hi == clampedInto lo hi value.
Proof.
  intros Hle. unfold clamp, clampedInto.
  destruct (Qlt_le_dec value lo) as [Hlo|Hlo].
  - rewrite Q.max_r by (apply Qlt_le_weak; exact Hlo).
    apply Q.min_l. exact Hle.
  - rewrite Q.max_l by exact Hlo.
    destruct (Qlt_le_dec hi value) as [Hhi|Hhi].
    + apply Q.min_r. apply Qlt_le_weak. exact Hhi.
    + apply Q.min_l. exact Hhi.
Qed.

(** With an empty interval the clamp lands on its upper argument. *)
Lemma clamp_inverted value lo hi : hi <= lo → clamp value lo hi == hi.
Proof.
  intros Hle. unfold clamp. apply Q.min_r.
  apply Qle_trans with lo; [exact Hle|apply Q.le_max_r].
Qed.

Lemma getLeft_width value width :
  ¬ width == 0 →
  getLeft (Some width) value = Value (clamp value 0 width / width).
Proof.
  intros Hw. unfold getLeft.
  destruct (Qeq_bool width 0) eqn:E.
  - apply Qeq_bool_eq in E. contradiction.
  - unfold clamp. apply divide_nonzero. exact Hw.
Qed.

Lemma left_in_unit_interval value width :
  ¬ width == 0 →
  0 <= clamp value 0 width / width ∧ clamp value 0 width / width <= 1.
Proof.
  intros Hw. destruct (Qlt_le_dec 0 width) as [Hpos|Hneg].
  - destruct (clamp_bounds value 0 width) as [Hlo Hhi];
      [apply Qlt_le_weak; exact Hpos|]. split.
    + apply Qle_shift_div_l; [exact Hpos|]. lra.
    + apply Qle_shift_div_r; [exact Hpos|]. lra.
  - assert (Heq : clamp value 0 width / width == 1).
    { rewrite (clamp_inverted value 0 width Hneg). field. exact Hw. }
    rewrite Heq. split; lra.
Qed.

(** *** The claims *)

(** C9. For [max] distinct from [min], [getPosition] returns
    [((value - min) / (max - min)) * 100] clamped into the closed interval
    from 0 to 100; in particular the position lies between 0 and 100. *)
Theorem getPosition_clamped max min value :
  ¬ max == min →
  ∃ position,
    getPosition max min value = Value position
    ∧ position == clampedInto 0 100 (((value - min) / (max - min)) * 100)
    ∧ 0 <= position ∧ position <= 100.
Proof.
  intros Hne. assert (Hd : ¬ max - min == 0) by (intros H; apply Hne; lra).
  unfold getPosition. rewrite (divide_nonzero _ _ Hd). simpl.
  eexists. split; [reflexivity|]. split.
  - apply (clamp_clampedInto _ 0 100). lra.
  - apply (clamp_bounds _ 0 100). lra.
Qed.

(** C10. With [precision] undefined and [step] nonzero, [getChangeValue]
    returns [min + k * step] for an integer [k], and [k] is 0 whenever
    [dx = left * (max - min)] is 0; when [containerWidth] is given and is not
    zero, [left] is [value] clamped by 0 and [containerWidth] and divided by
    [containerWidth], and lies between 0 and 1. *)
Theorem getChangeValue_on_step_grid containerWidth max min step value :
  ¬ step == 0 →
  ∃ (left nextValue : Q) (k : Z),
    getLeft containerWidth value = Value left
    ∧ getChangeValue containerWidth max min None step value = Value nextValue
    ∧ nextValue == min + inject_Z k * step
    ∧ (left * (max - min) == 0 → k = 0%Z)
    ∧ ∀ width, containerWidth = Some width → ¬ width == 0 →
        left = clamp value 0 width / width
        ∧ (0 <= left ∧ left <= 1)
        ∧ (0 < width →
           0 <= clamp value 0 width ∧ clamp value 0 width <= width).
Proof.
  intros Hstep.
  assert (Hleft : ∃ left, getLeft containerWidth value = Value left
            ∧ ∀ width, containerWidth = Some width → ¬ width == 0 →
                left = clamp value 0 width / width).
  { destruct containerWidth as [width|]; simpl.
    - destruct (Qeq_bool width 0) eqn:E.
      + exists value. split; [reflexivity|].
        intros w [= <-] Hw. apply Qeq_bool_eq in E. contradiction.
      + assert (Hw : ¬ width == 0) by (by apply Qeq_bool_neq).
        exists (clamp value 0 width / width). split.
        * unfold clamp. by apply divide_nonzero.
        * by intros w [= <-] _.
    - exists value. split; [reflexivity|]. intros w [=]. }
  destruct Hleft as (left & Hl & Hwidth).
  assert (Hrest : ∀ width, containerWidth = Some width → ¬ width == 0 →
            left = clamp value 0 width / width
            ∧ (0 <= left ∧ left <= 1)
            ∧ (0 < width →
               0 <= clamp value 0 width ∧ clamp value 0 width <= width)).
  { intros width Hc Hw. pose proof (Hwidth width Hc Hw) as ->.
    split; [reflexivity|]. split; [by apply left_in_unit_interval|].
    intros Hpos. apply clamp_bounds. by apply Qlt_le_weak. }
  unfold getChangeValue. rewrite Hl. simpl.
  destruct (Qeq_bool (left * (max - min)) 0) eqn:Hdx; simpl.
  - exists left, (0 + min), 0%Z. split_and!; [done|done| |done|done].
    ring.
  - rewrite (divide_nonzero _ _ Hstep). simpl.
    exists left, (Math_round (left * (max - min) / step) * step + min),
      (Qfloor (left * (max - min) / step + (1 # 2))).
    split_and!; [done|done| | |done].
    + unfold Math_round. ring.
    + intros Hzero. apply Qeq_bool_neq in Hdx. contradiction.
Qed.

Lemma getPosition_clamped_witness :
  ¬ 10 == 0
  ∧ ∃ position,
      getPosition 10 0 (5 # 2) = Value position
      ∧ position == clampedInto 0 100 ((((5 # 2) - 0) / (10 - 0)) * 100)
      ∧ 0 <= position ∧ position <= 100.
Proof.
  split; [discriminate|]. apply (getPosition_clamped 10 0 (5 # 2)).
  discriminate.
Defined.

Lemma getChangeValue_on_step_grid_witness :
  ¬ 5 == 0
  ∧ ∃ (left nextValue : Q) (k : Z),
      getLeft (Some 60) 31 = Value left
      ∧ getChangeValue (Some 60) 100 0 None 5 31 = Value nextValue
      ∧ nextValue == 0 + inject_Z k * 5
      ∧ (left * (100 - 0) == 0 → k = 0%Z)
      ∧ ∀ width, Some 60 = Some width → ¬ width == 0 →
          left = clamp 31 0 width / width
          ∧ (0 <= left ∧ left <= 1)
          ∧ (0 < width → 0 <= clamp 31 0 width ∧ clamp 31 0 width <= width).
Proof.
  split; [discriminate|].
  apply (getChangeValue_on_step_grid (Some 60) 100 0 5 31). discriminate.
Defined.

(** *** Further functions of the file *)

(** [isMarkedFilled({ mark, offset, value })], [mark.value] passed as
    [markValue]; [typeof offset === "number"] holds when an offset is
    given. *)
Definition isMarkedFilled (markValue : Q) (offset : option Q) (value : Q)
  : bool :=
  match offset with
  | Some o => Qle_bool o markValue && Qle_bool markValue value
  | None => Qle_bool markValue value
  end.

(** *** Further properties *)

Lemma Math_round_bounds x :
  x - (1 # 2) < Math_round x ∧ Math_round x <= x + (1 # 2).
Proof.
  unfold Math_round. split.
  - pose proof (Qlt_floor (x + (1 # 2))) as H.
    rewrite inject_Z_plus in H. change (inject_Z 1) with 1 in H. lra.
  - apply Qfloor_le.
Qed.

Lemma Math_round_mono x y : x <= y → Math_round x <= Math_round y.
Proof.
  intros Hxy. unfold Math_round. rewrite <- Zle_Qle.
  apply Qfloor_resp_le. lra.
Qed.

Lemma Math_round_integer (n : Z) : Math_round (inject_Z n) == inject_Z n.
Proof.
  destruct (Math_round_bounds (inject_Z n)) as [Hlo Hhi].
  unfold Math_round in *.
  set (m := Qfloor (inject_Z n + (1 # 2))) in *.
  assert (Hlo' : inject_Z n < inject_Z (m + 1))
    by (rewrite inject_Z_plus; change (inject_Z 1) with 1; lra).
  assert (Hhi' : inject_Z m < inject_Z (n + 1))
    by (rewrite inject_Z_plus; change (inject_Z 1) with 1; lra).
  rewrite <- Zlt_Qlt in Hlo', Hhi'.
  assert (m = n) as -> by lia. reflexivity.
Qed.

Lemma Math_round_compat x y : x == y → Math_round x == Math_round y.
Proof. intros Hxy. unfold Math_round. by rewrite Hxy. Qed.

(** [getLeft] always yields a number. *)
Lemma getLeft_value containerWidth value :
  ∃ left, getLeft containerWidth value = Value left.
Proof.
  destruct containerWidth as [width|]; simpl; [|eauto].
  destruct (Qeq_bool width 0) eqn:E; [eauto|].
  apply Qeq_bool_neq in E. rewrite (divide_nonzero _ _ E). eauto.
Qed.

(** For a nonzero [step] the test [dx !== 0] changes nothing: rounding 0
    gives 0. *)
Lemma getChangeValue_rounded containerWidth max min step value left :
  ¬ step == 0 →
  getLeft containerWidth value = Value left →
  ∃ nextValue,
    getChangeValue containerWidth max min None step value = Value nextValue
    ∧ nextValue == Math_round (left * (max - min) / step) * step + min.
Proof.
  intros Hstep Hl. unfold getChangeValue. rewrite Hl. simpl.
  destruct (Qeq_bool (left * (max - min)) 0) eqn:Hdx; simpl.
  - eexists. split; [reflexivity|]. apply Qeq_bool_eq in Hdx.
    assert (Hq : left * (max - min) / step == inject_Z 0).
    { rewrite Hdx. unfold Qdiv. ring. }
    rewrite (Math_round_compat _ _ Hq), Math_round_integer.
    change (inject_Z 0) with 0. ring.
  - rewrite (divide_nonzero _ _ Hstep). simpl.
    eexists. split; reflexivity.
Qed.

Lemma getLeft_mono containerWidth value1 value2 left1 left2 :
  value1 <= value2 →
  getLeft containerWidth value1 = Value left1 →
  getLeft containerWidth value2 = Value left2 →
  left1 <= left2.
Proof.
  intros Hv. destruct containerWidth as [width|]; simpl;
    [|intros [= <-] [= <-]; exact Hv].
  destruct (Qeq_bool width 0) eqn:E; [intros [= <-] [= <-]; exact Hv|].
  apply Qeq_bool_neq in E. rewrite !(divide_nonzero _ _ E).
  intros [= <-] [= <-].
  destruct (Qlt_le_dec 0 width) as [Hpos|Hneg].
  - unfold Qdiv. apply Qmult_le_compat_r.
    + apply Q.min_le_compat_r, Q.max_le_compat_r, Hv.
    + apply Qlt_le_weak, Qinv_lt_0_compat, Hpos.
  - pose proof (clamp_inverted value1 0 width Hneg) as H1.
    pose proof (clamp_inverted value2 0 width Hneg) as H2.
    unfold clamp in H1, H2. rewrite H1, H2. apply Qle_refl.
Qed.

(** X9. [getPosition] maps [min] to 0 and [max] to 100. *)
Theorem getPosition_endpoints max min :
  ¬ max == min →
  ∃ atMin atMax,
    getPosition max min min = Value atMin ∧ atMin == 0
    ∧ getPosition max min max = Value atMax ∧ atMax == 100.
Proof.
  intros Hne. assert (Hd : ¬ max - min == 0) by (intros H; apply Hne; lra).
  unfold getPosition. rewrite !(divide_nonzero _ _ Hd). simpl.
  do 2 eexists. split_and!; [reflexivity| |reflexivity|].
  - assert (H0 : (min - min) / (max - min) * 100 == 0)
      by (unfold Qdiv; ring).
    rewrite H0. reflexivity.
  - assert (H1 : (max - min) / (max - min) * 100 == 100)
      by (field; exact Hd).
    rewrite H1. reflexivity.
Qed.

(** X10. For [min < max] the position grows with the value. *)
Theorem getPosition_monotone max min value1 value2 :
  min < max →
  value1 <= value2 →
  ∃ position1 position2,
    getPosition max min value1 = Value position1
    ∧ getPosition max min value2 = Value position2
    ∧ position1 <= position2.
Proof.
  intros Hlt Hv. assert (Hd : ¬ max - min == 0) by lra.
  unfold getPosition. rewrite !(divide_nonzero _ _ Hd). simpl.
  do 2 eexists. split_and!; [reflexivity|reflexivity|].
  apply Q.min_le_compat_r, Q.max_le_compat_r.
  apply Qmult_le_compat_r; [|lra].
  unfold Qdiv. apply Qmult_le_compat_r; [lra|].
  apply Qlt_le_weak, Qinv_lt_0_compat. lra.
Qed.

(** X11. For [min <= max] the result of [clamp] lies in the interval, the
    values that [clamp] leaves alone are exactly those of the interval, and
    clamping twice is clamping once. *)
Theorem clamp_properties value min max :
  min <= max →
  (min <= clamp value min max ∧ clamp value min max <= max)
  ∧ (clamp value min max == value ↔ min <= value ∧ value <= max)
  ∧ clamp (clamp value min max) min max == clamp value min max.
Proof.
  intros Hle.
  assert (Hid : ∀ v, min <= v → v <= max → clamp v min max == v).
  { intros v Hlo Hhi. unfold clamp.
    rewrite (Q.max_l _ _ Hlo). apply Q.min_l, Hhi. }
  destruct (clamp_bounds value min max Hle) as [Hlo Hhi].
  split_and!; [exact Hlo|exact Hhi| |by apply Hid].
  split.
  - intros Heq. rewrite <- Heq. by split.
  - intros [Hlo' Hhi']. by apply Hid.
Qed.

(** X12. The value returned by [getChangeValue] is the raw value
    [min + dx] moved by at most half a step. *)
Theorem getChangeValue_within_half_step
  containerWidth max min step value left :
  ¬ step == 0 →
  getLeft containerWidth value = Value left →
  ∃ nextValue,
    getChangeValue containerWidth max min None step value = Value nextValue
    ∧ Qabs (nextValue - (min + left * (max - min))) <= Qabs step * (1 # 2).
Proof.
  intros Hstep Hl.
  destruct (getChangeValue_rounded containerWidth max min step value left
              Hstep Hl) as (nextValue & Hv & Heq).
  exists nextValue. split; [exact Hv|].
  set (q := left * (max - min) / step) in *.
  assert (Hdiff : nextValue - (min + left * (max - min))
                  == (Math_round q - q) * step).
  { rewrite Heq. unfold q. field. exact Hstep. }
  rewrite Hdiff, Qabs_Qmult, (Qmult_comm (Qabs step)).
  apply Qmult_le_compat_r; [|apply Qabs_nonneg].
  destruct (Math_round_bounds q) as [Hlo Hhi].
  apply Qabs_Qle_condition. split; lra.
Qed.

(** X13. When the range is a whole number of steps and the pointer position
    is taken relative to a container, the returned value stays between [min]
    and [max]. *)
Theorem getChangeValue_in_range width max min step value (n : Z) :
  ¬ width == 0 →
  0 < step →
  (0 <= n)%Z →
  max - min == inject_Z n * step →
  ∃ nextValue,
    getChangeValue (Some width) max min None step value = Value nextValue
    ∧ min <= nextValue ∧ nextValue <= max.
Proof.
  intros Hw Hstep Hn Hrange.
  assert (Hs : ¬ step == 0) by lra.
  pose proof (getLeft_width value width Hw) as Hl.
  destruct (left_in_unit_interval value width Hw) as [Hl0 Hl1].
  set (left := clamp value 0 width / width) in *.
  destruct (getChangeValue_rounded (Some width) max min step value left
              Hs Hl) as (nextValue & Hv & Heq).
  exists nextValue. split; [exact Hv|].
  assert (Hq : left * (max - min) / step == left * inject_Z n).
  { rewrite Hrange. field. exact Hs. }
  assert (Hn' : 0 <= inject_Z n).
  { change 0 with (inject_Z 0). by rewrite <- Zle_Qle. }
  assert (Hlo : inject_Z 0 <= Math_round (left * (max - min) / step)).
  { rewrite <- (Math_round_integer 0). apply Math_round_mono.
    rewrite Hq. change (inject_Z 0) with 0. by apply Qmult_le_0_compat. }
  assert (Hhi : Math_round (left * (max - min) / step) <= inject_Z n).
  { rewrite <- (Math_round_integer n). apply Math_round_mono.
    rewrite Hq. rewrite <- (Qmult_1_l (inject_Z n)) at 2.
    by apply Qmult_le_compat_r. }
  change (inject_Z 0) with 0 in Hlo.
  set (r := Math_round (left * (max - min) / step)) in *.
  assert (H0 : 0 <= r * step) by (apply Qmult_le_0_compat; lra).
  assert (H1 : r * step <= inject_Z n * step)
    by (apply Qmult_le_compat_r; lra).
  split; lra.
Qed.

(** X14. For a positive [step] and [min <= max] the returned value grows
    with [value], whatever the container width. *)
Theorem getChangeValue_monotone
  containerWidth max min step value1 value2 :
  0 < step →
  min <= max →
  value1 <= value2 →
  ∃ nextValue1 nextValue2,
    getChangeValue containerWidth max min None step value1 = Value nextValue1
    ∧ getChangeValue containerWidth max min None step value2
      = Value nextValue2
    ∧ nextValue1 <= nextValue2.
Proof.
  intros Hstep Hrange Hv. assert (Hs : ¬ step == 0) by lra.
  destruct (getLeft_value containerWidth value1) as [left1 Hl1].
  destruct (getLeft_value containerWidth value2) as [left2 Hl2].
  pose proof (getLeft_mono _ _ _ _ _ Hv Hl1 Hl2) as Hleft.
  destruct (getChangeValue_rounded containerWidth max min step value1 left1
              Hs Hl1) as (next1 & Hv1 & Heq1).
  destruct (getChangeValue_rounded containerWidth max min step value2 left2
              Hs Hl2) as (next2 & Hv2 & Heq2).
  exists next1, next2. split_and!; [exact Hv1|exact Hv2|].
  rewrite Heq1, Heq2.
  assert (Hr : Math_round (left1 * (max - min) / step)
               <= Math_round (left2 * (max - min) / step)).
  { apply Math_round_mono. unfold Qdiv. apply Qmult_le_compat_r.
    - apply Qmult_le_compat_r; [exact Hleft|lra].
    - apply Qlt_le_weak, Qinv_lt_0_compat, Hstep. }
  assert (Hm : Math_round (left1 * (max - min) / step) * step
               <= Math_round (left2 * (max - min) / step) * step)
    by (apply Qmult_le_compat_r; [exact Hr|lra]).
  lra.
Qed.

(** X15. With [max] equal to [min] the result is [min] for every value,
    container width and step, a zero step included: without displacement
    nothing is divided. *)
Theorem getChangeValue_empty_range containerWidth max min step value :
  max == min →
  ∃ nextValue,
    getChangeValue containerWidth max min None step value = Value nextValue
    ∧ nextValue == min.
Proof.
  intros Heq. destruct (getLeft_value containerWidth value) as [left Hl].
  unfold getChangeValue. rewrite Hl. simpl.
  assert (Hdx : Qeq_bool (left * (max - min)) 0 = true).
  { apply Qeq_bool_iff. rewrite Heq. ring. }
  rewrite Hdx. simpl. eexists. split; [reflexivity|]. ring.
Qed.

(** X16. A mark that is filled relative to an offset is filled without the
    offset too, and then the offset does not lie above the value: with an
    offset above the value no mark is filled. *)
Theorem isMarkedFilled_offset markValue offset value :
  isMarkedFilled markValue (Some offset) value = true →
  isMarkedFilled markValue None value = true ∧ offset <= value.
Proof.
  unfold isMarkedFilled. intros H. apply andb_prop in H.
  destruct H as [H1 H2]. split; [exact H2|].
  apply Qle_bool_iff in H1, H2. lra.
Qed.

Lemma getPosition_endpoints_witness :
  ¬ 10 == 2
  ∧ ∃ atMin atMax,
      getPosition 10 2 2 = Value atMin ∧ atMin == 0
      ∧ getPosition 10 2 10 = Value atMax ∧ atMax == 100.
Proof.
  split; [discriminate|]. apply (getPosition_endpoints 10 2). discriminate.
Defined.

Lemma getPosition_monotone_witness :
  2 < 10 ∧ 3 <= 7
  ∧ ∃ position1 position2,
      getPosition 10 2 3 = Value position1
      ∧ getPosition 10 2 7 = Value position2
      ∧ position1 <= position2.
Proof.
  split; [reflexivity|]. split; [discriminate|].
  apply (getPosition_monotone 10 2 3 7); [reflexivity|discriminate].
Defined.

Lemma clamp_properties_witness :
  0 <= 10
  ∧ (0 <= clamp 12 0 10 ∧ clamp 12 0 10 <= 10)
  ∧ (clamp 12 0 10 == 12 ↔ 0 <= 12 ∧ 12 <= 10)
  ∧ clamp (clamp 12 0 10) 0 10 == clamp 12 0 10.
Proof.
  split; [discriminate|]. apply (clamp_properties 12 0 10). discriminate.
Defined.

Lemma getChangeValue_within_half_step_witness :
  ¬ 4 == 0
  ∧ getLeft (Some 60) 60 = Value (Qmin (Qmax 60 0) 60 / 60)
  ∧ ∃ nextValue,
      getChangeValue (Some 60) 10 0 None 4 60 = Value nextValue
      ∧ Qabs (nextValue - (0 + (Qmin (Qmax 60 0) 60 / 60) * (10 - 0)))
        <= Qabs 4 * (1 # 2).
Proof.
  split; [discriminate|]. split; [reflexivity|].
  apply (getChangeValue_within_half_step (Some 60) 10 0 4 60);
    [discriminate|reflexivity].
Defined.

Lemma getChangeValue_in_range_witness :
  ¬ 60 == 0 ∧ 0 < 5 ∧ (0 <= 20)%Z ∧ 100 - 0 == inject_Z 20 * 5
  ∧ ∃ nextValue,
      getChangeValue (Some 60) 100 0 None 5 75 = Value nextValue
      ∧ 0 <= nextValue ∧ nextValue <= 100.
Proof.
  split; [discriminate|]. split; [reflexivity|]. split; [lia|].
  split; [reflexivity|].
  apply (getChangeValue_in_range 60 100 0 5 75 20);
    [discriminate|reflexivity|lia|reflexivity].
Defined.

Lemma getChangeValue_monotone_witness :
  0 < 5 ∧ 0 <= 100 ∧ 20 <= 31
  ∧ ∃ nextValue1 nextValue2,
      getChangeValue (Some 60) 100 0 None 5 20 = Value nextValue1
      ∧ getChangeValue (Some 60) 100 0 None 5 31 = Value nextValue2
      ∧ nextValue1 <= nextValue2.
Proof.
  split; [reflexivity|]. split; [discriminate|]. split; [discriminate|].
  apply (getChangeValue_monotone (Some 60) 100 0 5 20 31);
    [reflexivity|discriminate|discriminate].
Defined.

Lemma getChangeValue_empty_range_witness :
  7 == 7
  ∧ ∃ nextValue,
      getChangeValue (Some 60) 7 7 None 0 31 = Value nextValue
      ∧ nextValue == 7.
Proof.
  split; [reflexivity|]. apply (getChangeValue_empty_range (Some 60) 7 7 0 31).
  reflexivity.
Defined.

Lemma isMarkedFilled_offset_witness :
  isMarkedFilled 30 (Some 20) 50 = true
  ∧ isMarkedFilled 30 None 50 = true ∧ 20 <= 50.
Proof.
  split; [reflexivity|]. apply (isMarkedFilled_offset 30 20 50). reflexivity.
Defined.

(** *** [getSliderStyles] *)

Record Marks := mkMarks {
  filled : string;
  notFilled : string;
  label : string
}.

Record SliderStyles := mkSliderStyles {
  track : string;
  bar : string;
  thumb : string;
  marks : Marks
}.

Section Styles.

(** The colours of [constants/Colors] and [darkenColor] of
    [widgets/WidgetUtils] are imported; they are parameters here. *)
Variables GREY_5 GREY_6 DARK_GRAY GRAY_400 CHARCOAL : string.
Variable darkenColor : string → string.

(** [getSliderStyles({ color, disabled, dragging, hovering })] *)
Definition getSliderStyles (color : string) (disabled dragging hovering : bool)
  : SliderStyles :=
  let darkColor := darkenColor color in
  if disabled then
    mkSliderStyles GREY_5 GREY_6 GREY_6 (mkMarks GREY_6 GREY_5 DARK_GRAY)
  else if hovering || dragging then
    mkSliderStyles GRAY_400 darkColor darkColor
      (mkMarks darkColor GRAY_400 CHARCOAL)
  else
    mkSliderStyles GREY_5 color color (mkMarks color GREY_5 CHARCOAL).

(** X17. In every state the bar, the thumb and the filled marks share one
    colour and the track shares its colour with the marks that are not
    filled; a disabled slider looks the same whatever its colour and whether
    or not it is hovered or dragged. *)
Theorem getSliderStyles_consistent color disabled dragging hovering :
  let styles := getSliderStyles color disabled dragging hovering in
  bar styles = thumb styles
  ∧ thumb styles = filled (marks styles)
  ∧ track styles = notFilled (marks styles)
  ∧ ∀ color' dragging' hovering',
      getSliderStyles color true dragging hovering
      = getSliderStyles color' true dragging' hovering'.
Proof.
  unfold getSliderStyles.
  destruct disabled, hovering, dragging; simpl; split_and!; reflexivity.
Qed.

End Styles.

(** The raw value can leave the range when the range is not a whole number
    of steps: with [min = 0], [max = 10] and [step = 4] the right end of the
    track gives 12. *)
Example getChangeValue_overshoot :
  match getChangeValue (Some 60) 10 0 None 4 60 with
  | Value v => v == 12
  | _ => False
  end.
Proof. vm_compute. reflexivity. Qed.

End NumberSlider.

(** ** The incremental evaluator

    [DataTreeEvaluator] is described by the specification only; this module
    follows that description. *)

Module Evaluator.

Section Evaluation.

(** Evaluated property values, and the evaluation of the binding of a path
    against a data tree (the expression language itself is outside the
    specification). *)
Variable V : Type.
Variable evalBinding : string → gmap string V → V.

Implicit Types (dependencyMap : gmap string (list string)).
Implicit Types (dataTree : gmap string V) (changed dirty placed : gset string).
Implicit Types (order nodes : list string) (p q : string).

(** Modelled from the spec: the dependency graph of [DataTreeEvaluator],
    missing from the sources. "builds a dependency graph across all
    entities": each path with a binding maps to the paths its binding
    references; a path without a binding has no dependencies. *)
Definition dependenciesOf dependencyMap p : list string :=
  default [] (dependencyMap !! p).

(** Modelled from the spec: "depends, directly or transitively, on the
    changed entity", the entity being given by the set [changed] of its
    paths. *)
Inductive DependsOn dependencyMap changed : string → Prop :=
| depends_direct p q :
    q ∈ dependenciesOf dependencyMap p → q ∈ changed →
    DependsOn dependencyMap changed p
| depends_trans p q :
    q ∈ dependenciesOf dependencyMap p → DependsOn dependencyMap changed q →
    DependsOn dependencyMap changed p.

(** Modelled from the spec: "topologically orders". An evaluation order
    lists each path after the paths with bindings that it references;
    [placed] holds the paths already listed. *)
Fixpoint topologicallyOrdered dependencyMap placed order : Prop :=
  match order with
  | [] => True
  | p :: rest =>
      (∀ q, q ∈ dependenciesOf dependencyMap p → q ∈ dom dependencyMap →
            q ∈ placed)
      ∧ topologicallyOrdered dependencyMap ({[p]} ∪ placed) rest
  end.

(** Does the binding of [p] read a path that is dirty? *)
Definition readsDirty dependencyMap dirty p : bool :=
  bool_decide (Exists (λ q, q ∈ dirty) (dependenciesOf dependencyMap p)).

(** Modelled from the spec: "the affected nodes when any entity changes".
    One pass over the evaluation order; a path is affected when its binding
    reads a changed or an affected path. *)
Fixpoint affectedNodes dependencyMap dirty order : list string :=
  match order with
  | [] => []
  | p :: rest =>
      if readsDirty dependencyMap dirty p
      then p :: affectedNodes dependencyMap ({[p]} ∪ dirty) rest
      else affectedNodes dependencyMap dirty rest
  end.

(** Modelled from the spec: the re-evaluation of one node. The binding of
    the path is evaluated against the tree and the result stored under the
    path, "the in-memory mapping of all entities and their current evaluated
    property values". *)
Definition evalNode dataTree p : gmap string V :=
  <[p := evalBinding p dataTree]> dataTree.

(** Modelled from the spec: "incrementally re-evaluates only the affected
    nodes", in evaluation order. *)
Definition reevaluate dependencyMap order changed dataTree : gmap string V :=
  foldl evalNode dataTree (affectedNodes dependencyMap changed order).

(** Modelled from the spec: "when any entity changes". The entity's new
    property values are written into the tree, then the affected paths are
    re-evaluated. *)
Definition updateEntity
  dependencyMap order (newValues : gmap string V) dataTree : gmap string V :=
  reevaluate dependencyMap order (dom newValues) (newValues ∪ dataTree).

(** *** The affected nodes *)

Lemma readsDirty_true dependencyMap dirty p :
  readsDirty dependencyMap dirty p = true
  ↔ ∃ q, q ∈ dependenciesOf dependencyMap p ∧ q ∈ dirty.
Proof.
  unfold readsDirty. rewrite bool_decide_eq_true, Exists_exists. done.
Qed.

Lemma DependsOn_has_binding dependencyMap changed p :
  DependsOn dependencyMap changed p → p ∈ dom dependencyMap.
Proof.
  assert (Hdom : ∀ q, q ∈ dependenciesOf dependencyMap p →
                      p ∈ dom dependencyMap).
  { intros q. unfold dependenciesOf. rewrite elem_of_dom.
    destruct (dependencyMap !! p); [eauto|]. by intros ?%elem_of_nil. }
  inversion 1; subst; eauto.
Qed.

(** Only paths that depend on the change are picked. *)
Lemma affectedNodes_sound dependencyMap changed dirty order p :
  (∀ q, q ∈ dirty → q ∈ changed ∨ DependsOn dependencyMap changed q) →
  p ∈ affectedNodes dependencyMap dirty order →
  DependsOn dependencyMap changed p.
Proof.
  revert dirty. induction order as [|n order IH]; intros dirty Hdirty; simpl.
  - by intros ?%elem_of_nil.
  - destruct (readsDirty dependencyMap dirty n) eqn:Hreads;
      [|by apply IH].
    apply readsDirty_true in Hreads. destruct Hreads as (q & Hq & Hqd).
    assert (Hn : DependsOn dependencyMap changed n).
    { destruct (Hdirty q Hqd);
        [by eapply depends_direct|by eapply depends_trans]. }
    intros [->|Hin]%elem_of_cons; [done|].
    apply (IH ({[n]} ∪ dirty)); [|done].
    intros q' [->%elem_of_singleton|?]%elem_of_union; auto.
Qed.

(** In a topological order every listed path that depends on the change is
    picked. *)
Lemma affectedNodes_complete dependencyMap changed placed dirty order p :
  changed ⊆ dirty →
  (∀ q, q ∈ placed → DependsOn dependencyMap changed q → q ∈ dirty) →
  topologicallyOrdered dependencyMap placed order →
  p ∈ order →
  DependsOn dependencyMap changed p →
  p ∈ affectedNodes dependencyMap dirty order.
Proof.
  revert placed dirty.
  induction order as [|n order IH]; intros placed dirty Hch Hplaced Htopo Hin Hdep.
  - by apply elem_of_nil in Hin.
  - destruct Htopo as [Hn Htopo]. simpl.
    destruct (readsDirty dependencyMap dirty n) eqn:Hreads.
    + apply elem_of_cons in Hin. destruct Hin as [->|Hin]; [left|].
      right. apply (IH ({[n]} ∪ placed)); auto.
      * set_solver.
      * intros q [->%elem_of_singleton|Hq]%elem_of_union Hd;
          apply elem_of_union; [left; by apply elem_of_singleton|auto].
    + assert (Hnot : ¬ DependsOn dependencyMap changed n).
      { intros Hd. apply not_true_iff_false in Hreads. apply Hreads.
        apply readsDirty_true. destruct Hd as [? q Hq Hc|? q Hq Hd].
        - exists q. split; [done|]. by apply Hch.
        - exists q. split; [done|]. apply Hplaced; [|done].
          apply Hn; [done|]. by eapply DependsOn_has_binding. }
      apply elem_of_cons in Hin. destruct Hin as [->|Hin]; [done|].
      apply (IH ({[n]} ∪ placed)); auto.
      intros q [->%elem_of_singleton|Hq]%elem_of_union Hd; [done|auto].
Qed.

(** *** The frame of a re-evaluation *)

Lemma foldl_evalNode_frame dataTree nodes p :
  p ∉ nodes → foldl evalNode dataTree nodes !! p = dataTree !! p.
Proof.
  revert dataTree. induction nodes as [|n nodes IH]; intros dataTree Hp;
    simpl; [done|].
  apply not_elem_of_cons in Hp. destruct Hp as [Hne Hp].
  rewrite IH by done. unfold evalNode. by rewrite lookup_insert_ne.
Qed.

(** Each affected path holds the value of its binding at the time it was
    evaluated: the evaluator does re-evaluate what is affected. *)
Lemma foldl_evalNode_last dataTree nodes p :
  (foldl evalNode dataTree (nodes ++ [p])) !! p
  = Some (evalBinding p (foldl evalNode dataTree nodes)).
Proof.
  rewrite foldl_app. simpl. unfold evalNode. by rewrite lookup_insert_eq.
Qed.

(** C6. When an entity changes, only the affected nodes are re-evaluated:
    every path of the data tree that neither belongs to the changed entity
    nor depends on it, directly or transitively, keeps its previous
    evaluated value. *)
Theorem unaffected_paths_retain_value
  dependencyMap order (newValues : gmap string V) dataTree p :
  p ∉ dom newValues →
  ¬ DependsOn dependencyMap (dom newValues) p →
  updateEntity dependencyMap order newValues dataTree !! p = dataTree !! p.
Proof.
  intros Hp Hdep. unfold updateEntity, reevaluate.
  rewrite foldl_evalNode_frame.
  - apply lookup_union_r. by apply not_elem_of_dom.
  - intros Hin. apply Hdep.
    eapply affectedNodes_sound; [|exact Hin]. auto.
Qed.

End Evaluation.

(** *** A page with two text widgets

    [Text1.text] shows [Input1.text], [Text2.text] shows [Api1.data]; the
    input changes. *)

Definition sampleDependencyMap : gmap string (list string) :=
  {[ "Text1.text" := ["Input1.text"]; "Text2.text" := ["Api1.data"] ]}.

Definition sampleOrder : list string := ["Text1.text"; "Text2.text"].

Definition sampleTree : gmap string Z :=
  {[ "Input1.text" := 1%Z; "Text1.text" := 1%Z;
     "Api1.data" := 7%Z; "Text2.text" := 7%Z ]}.

(** The binding of a path copies the first path it references. *)
Definition sampleEval (p : string) (dataTree : gmap string Z) : Z :=
  match dependenciesOf sampleDependencyMap p with
  | q :: _ => default 0%Z (dataTree !! q)
  | [] => 0%Z
  end.

Example updateEntity_sample :
  let dataTree :=
    updateEntity Z sampleEval sampleDependencyMap sampleOrder
      {[ "Input1.text" := 5%Z ]} sampleTree in
  dataTree !! "Input1.text" = Some 5%Z
  ∧ dataTree !! "Text1.text" = Some 5%Z
  ∧ dataTree !! "Text2.text" = Some 7%Z
  ∧ dataTree !! "Api1.data" = Some 7%Z.
Proof. vm_compute. done. Qed.

Lemma sample_independent :
  ¬ DependsOn sampleDependencyMap (dom ({[ "Input1.text" := 5%Z ]} : gmap string Z))
      "Text2.text".
Proof.
  assert (Hdeps : dependenciesOf sampleDependencyMap "Text2.text"
                  = ["Api1.data"]) by reflexivity.
  assert (Hleaf : dependenciesOf sampleDependencyMap "Api1.data" = [])
    by reflexivity.
  intros H. inversion H as [? q Hq Hc|? q Hq Hd]; subst;
    rewrite Hdeps in Hq; apply list_elem_of_singleton in Hq; subst.
  - rewrite dom_singleton_L in Hc. by apply elem_of_singleton in Hc.
  - inversion Hd as [? q Hq _|? q Hq _]; subst;
      rewrite Hleaf in Hq; by apply elem_of_nil in Hq.
Qed.

Lemma unaffected_paths_retain_value_witness :
  ("Text2.text" ∉ dom ({[ "Input1.text" := 5%Z ]} : gmap string Z))
  ∧ ¬ DependsOn sampleDependencyMap
        (dom ({[ "Input1.text" := 5%Z ]} : gmap string Z)) "Text2.text"
  ∧ updateEntity Z sampleEval sampleDependencyMap sampleOrder
      {[ "Input1.text" := 5%Z ]} sampleTree !! "Text2.text"
    = sampleTree !! "Text2.text".
Proof.
  assert (Hfresh : "Text2.text"
                     ∉ dom ({[ "Input1.text" := 5%Z ]} : gmap string Z)).
  { rewrite dom_singleton_L. by intros ?%elem_of_singleton. }
  split_and!; [exact Hfresh|exact sample_independent|].
  apply (unaffected_paths_retain_value Z sampleEval sampleDependencyMap
           sampleOrder {[ "Input1.text" := 5%Z ]} sampleTree "Text2.text").
  - exact Hfresh.
  - exact sample_independent.
Defined.

End Evaluator.

(** ** AddPageContextMenu: keyboard navigation of the "create page" menu *)

Module AddPageContextMenu.

Local Open Scope Z_scope.

(** The three entries of [ContextMenuItems], each named by its [data-cy]
    attribute. *)
Definition ContextMenuItems : list string :=
  [ "add-page"; "generate-page"; "add-page-from-template" ].

Definition itemCount : Z := Z.of_nat (length ContextMenuItems).

(** The updater that [handleUpKey] passes to [setActiveItemIdx]. *)
Definition handleUpKey (currentActiveIndex : Z) : Z :=
  if currentActiveIndex <=? 0 then itemCount - 1
  else Z.max (currentActiveIndex - 1) 0.

(** The updater that [handleDownKey] passes to [setActiveItemIdx]. *)
Definition handleDownKey (currentActiveIndex : Z) : Z :=
  if currentActiveIndex >=? itemCount - 1 then 0
  else Z.min (currentActiveIndex + 1) (itemCount - 1).

(** [ContextMenuItems[activeItemIdx]], the item that [handleSelect] hands to
    [onMenuItemClick]; [None] is [undefined]. *)
Definition selectedItem (activeItemIdx : Z) : option string :=
  if activeItemIdx <? 0 then None
  else ContextMenuItems !! Z.to_nat activeItemIdx.

Inductive Key := UpKey | DownKey.

Definition pressKey (activeItemIdx : Z) (key : Key) : Z :=
  match key with
  | UpKey => handleUpKey activeItemIdx
  | DownKey => handleDownKey activeItemIdx
  end.

(** The active index after a sequence of key presses, from the initial
    state [useState(0)]. *)
Definition activeItemIdxAfter (keys : list Key) : Z := foldl pressKey 0 keys.

Lemma itemCount_eq : itemCount = 3.
Proof. reflexivity. Qed.

Lemma menu_index_cases currentActiveIndex :
  0 <= currentActiveIndex < itemCount →
  currentActiveIndex = 0 ∨ currentActiveIndex = 1 ∨ currentActiveIndex = 2.
Proof. rewrite itemCount_eq. lia. Qed.

Lemma pressKey_range currentActiveIndex key :
  0 <= currentActiveIndex < itemCount →
  0 <= pressKey currentActiveIndex key < itemCount.
Proof.
  intros Hrange. rewrite itemCount_eq.
  destruct (menu_index_cases _ Hrange) as [->|[->| ->]], key;
    vm_compute; split; congruence.
Qed.

(** X18. On the indices of the menu the keys move cyclically: up goes to
    the previous item and from the first to the last, down to the next item
    and from the last to the first. *)
Theorem keys_move_cyclically currentActiveIndex :
  0 <= currentActiveIndex < itemCount →
  handleUpKey currentActiveIndex = (currentActiveIndex - 1) mod itemCount
  ∧ handleDownKey currentActiveIndex
    = (currentActiveIndex + 1) mod itemCount.
Proof.
  intros Hrange.
  destruct (menu_index_cases _ Hrange) as [->|[->| ->]]; split; reflexivity.
Qed.

(** X19. On the indices of the menu the two keys undo each other, the
    first and the last item being neighbours. *)
Theorem up_and_down_are_inverse currentActiveIndex :
  0 <= currentActiveIndex < itemCount →
  handleUpKey (handleDownKey currentActiveIndex) = currentActiveIndex
  ∧ handleDownKey (handleUpKey currentActiveIndex) = currentActiveIndex.
Proof.
  intros Hrange.
  destruct (menu_index_cases _ Hrange) as [->|[->| ->]]; split; reflexivity.
Qed.

(** X20. After any sequence of key presses [handleSelect] finds an item:
    the active index never leaves the menu. *)
Theorem selection_always_defined keys :
  0 <= activeItemIdxAfter keys < itemCount
  ∧ ∃ item, selectedItem (activeItemIdxAfter keys) = Some item.
Proof.
  assert (Hrange : 0 <= activeItemIdxAfter keys < itemCount).
  { unfold activeItemIdxAfter.
    induction keys as [|key keys IH] using rev_ind.
    - rewrite itemCount_eq. simpl. lia.
    - rewrite foldl_app. simpl. by apply pressKey_range. }
  split; [exact Hrange|].
  unfold selectedItem. rewrite itemCount_eq in Hrange.
  destruct (Z.ltb_spec (activeItemIdxAfter keys) 0); [lia|].
  apply lookup_lt_is_Some. simpl. lia.
Qed.

Lemma keys_move_cyclically_witness :
  0 <= 0 < itemCount
  ∧ handleUpKey 0 = (0 - 1) mod itemCount
  ∧ handleDownKey 0 = (0 + 1) mod itemCount.
Proof.
  split; [rewrite itemCount_eq; lia|].
  apply (keys_move_cyclically 0). rewrite itemCount_eq; lia.
Defined.

Lemma up_and_down_are_inverse_witness :
  0 <= 2 < itemCount
  ∧ handleUpKey (handleDownKey 2) = 2
  ∧ handleDownKey (handleUpKey 2) = 2.
Proof.
  split; [rewrite itemCount_eq; lia|].
  apply (up_and_down_are_inverse 2). rewrite itemCount_eq; lia.
Defined.

End AddPageContextMenu.

(** ** widgets/BaseWidget.tsx *)

Module BaseWidget.

Local Open Scope Q_scope.

(** The part of [WidgetProps] that the functions below read; an optional
    property is an [option], [None] standing for [undefined]. *)
Record WidgetProps := mkWidgetProps {
  leftColumn : Q;
  rightColumn : Q;
  topRow : Q;
  bottomRow : Q;
  parentColumnSpace : Q;
  parentRowSpace : Q;
  noContainerOffset : option bool;
  maxDynamicHeight : option Q;
  minDynamicHeight : option Q
}.



(** [x < y] and [x > y] on numbers. *)
Definition Qlt_bool (x y : Q) : bool := negb (Qle_bool y x).

Lemma Qlt_bool_iff x y : Qlt_bool x y = true ↔ x < y.
Proof.
  unfold Qlt_bool. rewrite negb_true_iff. split.
  - intros H. apply Qnot_le_lt. intros Hle.
    apply Qle_bool_iff in Hle. congruence.
  - intros H. destruct (Qle_bool y x) eqn:E; [|reflexivity].
    apply Qle_bool_iff in E. lra.
Qed.

(** [Math.ceil] *)
Definition Math_ceil (x : Q) : Q := inject_Z (Qceiling x).

(** Truthiness of an optional boolean and of a string. *)
Definition truthy (b : option bool) : bool := default false b.

Definition truthyString (s : string) : bool := negb (bool_decide (s = "")).

Section Constants.

(** The constants of [constants/WidgetConstants] and the enumeration
    [DynamicHeight] of [utils/WidgetFeatures] are imported; they are
    parameters here. *)
Variable DEFAULT_GRID_ROW_HEIGHT : Q.
Variables MAX_HEIGHT_IN_ROWS MIN_HEIGHT_IN_ROWS : Q.
Variable CONTAINER_GRID_PADDING : Q.
Variable AUTO_HEIGHT_WITH_LIMITS : string.
Variables ABSOLUTE PIXEL : string.

(** [DynamicHeight.AUTO_HEIGHT_WITH_LIMITS && limit ? limit : fallback] *)
Definition limitOr (limit : option Q) (fallback : Q) : Q :=
  match limit with
  | Some rows =>
      if truthyString AUTO_HEIGHT_WITH_LIMITS && negb (Qeq_bool rows 0)
      then rows else fallback
  | None => fallback
  end.

(** The locals [maxDynamicHeightInRows] and [minDynamicHeightInRows]. *)
Definition maxDynamicHeightInRows (props : WidgetProps) : Q :=
  limitOr (maxDynamicHeight props) MAX_HEIGHT_IN_ROWS.

Definition minDynamicHeightInRows (props : WidgetProps) : Q :=
  limitOr (minDynamicHeight props) MIN_HEIGHT_IN_ROWS.

(** The local [expectedHeightInRows]. *)
Definition expectedHeightInRows (expectedHeight : Q) : NumberSlider.Outcome :=
  NumberSlider.bind
    (NumberSlider.divide expectedHeight DEFAULT_GRID_ROW_HEIGHT)
    (λ rows, NumberSlider.Value (Math_ceil rows)).

(** [shouldUpdateDynamicHeight(expectedHeight)]; the result of
    [isDynamicHeightEnabledForWidget(this.props)] is passed as
    [isDynamicHeightEnabled]. [None] when the row height is zero and the
    expected height in rows decides the answer. *)
Definition shouldUpdateDynamicHeight
  (props : WidgetProps) (isDynamicHeightEnabled : bool) (expectedHeight : Q)
  : option bool :=
  let currentHeightInRows := bottomRow props - topRow props in
  let expected := expectedHeightInRows expectedHeight in
  if negb isDynamicHeightEnabled then Some false
  else
    match expected with
    | NumberSlider.Value expectedHeightInRows =>
        let maxRows := maxDynamicHeightInRows props in
        let minRows := minDynamicHeightInRows props in
        Some
          (if Qlt_bool currentHeightInRows expectedHeightInRows
              && Qle_bool currentHeightInRows maxRows
           then true
           else if Qlt_bool expectedHeightInRows currentHeightInRows
                   && Qle_bool minRows expectedHeightInRows
           then true
           else if Qlt_bool expectedHeightInRows currentHeightInRows
                   && Qlt_bool expectedHeightInRows minRows
           then true
           else if Qlt_bool currentHeightInRows minRows then true
           else if Qlt_bool maxRows currentHeightInRows then true
           else false)
    | _ => None
    end.




(** X21. A widget without dynamic height is never asked to update. With
    dynamic height, the answer is no exactly when the current height in rows
    equals the expected one and lies within the limits: the limits never
    hold back a change, and a height outside the limits is always
    reported. *)
Theorem shouldUpdateDynamicHeight_spec props expectedHeight :
  ¬ DEFAULT_GRID_ROW_HEIGHT == 0 →
  let current := bottomRow props - topRow props in
  let expected := Math_ceil (expectedHeight / DEFAULT_GRID_ROW_HEIGHT) in
  shouldUpdateDynamicHeight props false expectedHeight = Some false
  ∧ ∃ answer,
      shouldUpdateDynamicHeight props true expectedHeight = Some answer
      ∧ (answer = false
         ↔ current == expected
           ∧ minDynamicHeightInRows props <= current
           ∧ current <= maxDynamicHeightInRows props).
Proof.
  intros Hrow current expected. split; [reflexivity|].
  unfold shouldUpdateDynamicHeight, expectedHeightInRows.
  rewrite (NumberSlider.divide_nonzero _ _ Hrow). simpl.
  fold current. fold expected.
  set (maxRows := maxDynamicHeightInRows props).
  set (minRows := minDynamicHeightInRows props).
  eexists. split; [reflexivity|].
  destruct (Qlt_bool current expected) eqn:H1;
    destruct (Qlt_bool expected current) eqn:H2;
    destruct (Qle_bool current maxRows) eqn:H3;
    destruct (Qle_bool minRows expected) eqn:H4;
    destruct (Qlt_bool expected minRows) eqn:H5;
    destruct (Qlt_bool current minRows) eqn:H6;
    destruct (Qlt_bool maxRows current) eqn:H7; simpl;
    repeat match goal with
      | H : Qlt_bool _ _ = true |- _ => apply Qlt_bool_iff in H
      | H : Qlt_bool _ _ = false |- _ =>
          apply not_true_iff_false in H; rewrite Qlt_bool_iff in H
      | H : Qle_bool _ _ = true |- _ => apply Qle_bool_iff in H
      | H : Qle_bool _ _ = false |- _ =>
          apply not_true_iff_false in H; rewrite Qle_bool_iff in H
      end;
    (split; [intros Hans; try discriminate Hans; split_and!; lra
            |intros (Heq & Hmin & Hmax); try reflexivity; exfalso; lra]).
Qed.


End Constants.

Lemma shouldUpdateDynamicHeight_spec_witness :
  let props := mkWidgetProps 0 10 2 6 1 10 None (Some 8) None in
  ¬ 10 == 0
  ∧ shouldUpdateDynamicHeight 10 9000 4 "AUTO_HEIGHT_WITH_LIMITS"
      props false 41 = Some false
  ∧ ∃ answer,
      shouldUpdateDynamicHeight 10 9000 4 "AUTO_HEIGHT_WITH_LIMITS"
        props true 41 = Some answer
      ∧ (answer = false
         ↔ bottomRow props - topRow props == Math_ceil (41 / 10)
           ∧ minDynamicHeightInRows 4 "AUTO_HEIGHT_WITH_LIMITS" props
             <= bottomRow props - topRow props
           ∧ bottomRow props - topRow props
             <= maxDynamicHeightInRows 9000 "AUTO_HEIGHT_WITH_LIMITS" props).
Proof.
  intros props. split; [discriminate|].
  apply (shouldUpdateDynamicHeight_spec 10 9000 4 "AUTO_HEIGHT_WITH_LIMITS"
           props 41).
  discriminate.
Defined.

(** *** [getErrorCount] *)

(** [EvaluationError], of which only [errorType] is read. *)
Record EvaluationError := mkEvaluationError {
  errorType : string;
  errorMessage : string
}.

Section ErrorCount.

(** [PropertyEvaluationErrorType.LINT], imported from
    [utils/DynamicBindingUtils]. *)
Variable LINT : string.

(** [getErrorCount(evalErrors)]: [evalErrors] lists the properties of the
    record with their errors, in the order of [Object.values]. The function
    is memoized on [JSON.stringify] of its argument, which does not change
    what it returns. *)
Definition getErrorCount (evalErrors : list (string * list EvaluationError))
  : nat :=
  foldl (λ prev curr,
           (length (List.filter
                      (λ error, negb (bool_decide (errorType error = LINT)))
                      curr)
            + prev)%nat)
    0%nat (map snd evalErrors).

Lemma getErrorCount_from evalErrors (start : nat) :
  foldl (λ prev curr,
           (length (List.filter
                      (λ error, negb (bool_decide (errorType error = LINT)))
                      curr)
            + prev)%nat)
    start (map snd evalErrors)
  = (start + getErrorCount evalErrors)%nat.
Proof.
  unfold getErrorCount. revert start.
  induction evalErrors as [|[property errors] evalErrors IH]; intros start;
    simpl; [lia|].
  rewrite IH. rewrite (IH (_ + 0)%nat). lia.
Qed.

Lemma getErrorCount_cons property errors evalErrors :
  getErrorCount ((property, errors) :: evalErrors)
  = (length (List.filter
               (λ error, negb (bool_decide (errorType error = LINT))) errors)
     + getErrorCount evalErrors)%nat.
Proof.
  unfold getErrorCount at 1. simpl. rewrite getErrorCount_from. lia.
Qed.

Lemma filter_length_zero {A} (f : A → bool) (l : list A) :
  length (List.filter f l) = 0%nat ↔ Forall (λ x, f x = false) l.
Proof.
  induction l as [|x l IH]; simpl.
  - split; [constructor|done].
  - destruct (f x) eqn:E; simpl.
    + split; [lia|]. intros H. inversion H; congruence.
    + rewrite IH. split; [by constructor|]. intros H. by inversion H.
Qed.

(** X23. The error count is zero exactly when every error of every property
    is a lint error; it never exceeds the number of errors, and the count of
    two records listed one after the other is the sum of their counts. *)
Theorem getErrorCount_spec evalErrors moreErrors :
  (getErrorCount evalErrors = 0%nat
   ↔ Forall (λ entry, Forall (λ error, errorType error = LINT) entry.2)
       evalErrors)
  ∧ (getErrorCount evalErrors
     ≤ length (concat (map snd evalErrors)))%nat
  ∧ getErrorCount (evalErrors ++ moreErrors)
    = (getErrorCount evalErrors + getErrorCount moreErrors)%nat.
Proof.
  split_and!.
  - induction evalErrors as [|[property errors] evalErrors IH].
    + split; [constructor|reflexivity].
    + rewrite getErrorCount_cons, Nat.eq_add_0, IH, filter_length_zero.
      rewrite Forall_cons. simpl.
      assert (Hlint : Forall
                (λ error, negb (bool_decide (errorType error = LINT)) = false)
                errors
              ↔ Forall (λ error, errorType error = LINT) errors).
      { apply Forall_iff. intros error.
        rewrite negb_false_iff, bool_decide_eq_true. done. }
      rewrite Hlint. done.
  - induction evalErrors as [|[property errors] evalErrors IH];
      [reflexivity|].
    rewrite getErrorCount_cons. simpl. rewrite length_app.
    pose proof (filter_length
      (λ error, negb (bool_decide (errorType error = LINT))) errors).
    pose proof (filter_length_le
      (λ error, negb (bool_decide (errorType error = LINT))) errors).
    lia.
  - induction evalErrors as [|[property errors] evalErrors IH];
      [reflexivity|].
    rewrite <- app_comm_cons, !getErrorCount_cons, IH. lia.
Qed.

End ErrorCount.

(** *** [getWidgetView] *)

(** [RenderModes.CANVAS], [RenderModes.PAGE], and every other value of
    [renderMode]. *)
Inductive RenderMode := CANVAS | PAGE | OtherRenderMode.

(** The components that wrap the page view of a widget. *)
Inductive View :=
| PageView
| ErrorBoundary (content : View)
| PreviewModeComponent (isVisible : option bool) (content : View)
| PreventInteractionsOverlay (content : View)
| OverlayCommentsWrapper (content : View)
| ResizableComponent (content : View)
| WithWidgetName (shown : bool) (content : View)
| DraggableComponent (content : View)
| SnipeableComponent (content : View)
| PositionedContainer (content : View)
| DynamicHeightOverlay (content : View).

Inductive Rendered :=
| Element (view : View)
| Null
| Throws (message : string).

(** The properties read by [getWidgetView]; [dynamicHeightWithLimits] is
    [dynamicHeight === DynamicHeight.AUTO_HEIGHT_WITH_LIMITS]. *)
Record ViewProps := mkViewProps {
  renderMode : RenderMode;
  isVisible : option bool;
  detachFromLayout : option bool;
  resizeDisabled : option bool;
  disablePropertyPane : option bool;
  dynamicHeightWithLimits : bool
}.

(** [getCanvasView()] *)
Definition getCanvasView : View := ErrorBoundary PageView.

(** [showWidgetName(content)] *)
Definition showWidgetName (props : ViewProps) (content : View) : View :=
  WithWidgetName (negb (truthy (disablePropertyPane props))) content.

(** [getWidgetView()] *)
Definition getWidgetView (props : ViewProps) : Rendered :=
  match renderMode props with
  | CANVAS =>
      let content := getCanvasView in
      let content := PreviewModeComponent (isVisible props) content in
      let content := PreventInteractionsOverlay content in
      let content := OverlayCommentsWrapper content in
      if negb (truthy (detachFromLayout props)) then
        let content :=
          if negb (truthy (resizeDisabled props))
          then ResizableComponent content else content in
        let content := showWidgetName props content in
        let content := DraggableComponent content in
        let content := SnipeableComponent content in
        let content := PositionedContainer content in
        let content :=
          if dynamicHeightWithLimits props
          then DynamicHeightOverlay content else content in
        Element content
      else Element content
  | PAGE =>
      let content := PageView in
      if truthy (isVisible props) then
        let content := PreventInteractionsOverlay content in
        let content := OverlayCommentsWrapper content in
        let content := ErrorBoundary content in
        let content :=
          if negb (truthy (detachFromLayout props))
          then PositionedContainer content else content in
        Element content
      else Null
  | OtherRenderMode => Throws "RenderMode not defined"
  end.

(** The wrappers of a view that belong to the editor. *)
Fixpoint editorWrappers (view : View) : nat :=
  match view with
  | PageView => 0
  | ErrorBoundary content | PreventInteractionsOverlay content
  | OverlayCommentsWrapper content | PositionedContainer content =>
      editorWrappers content
  | PreviewModeComponent _ content | ResizableComponent content
  | WithWidgetName _ content | DraggableComponent content
  | SnipeableComponent content | DynamicHeightOverlay content =>
      S (editorWrappers content)
  end.

Fixpoint errorBoundaries (view : View) : nat :=
  match view with
  | PageView => 0
  | ErrorBoundary content => S (errorBoundaries content)
  | PreviewModeComponent _ content | PreventInteractionsOverlay content
  | OverlayCommentsWrapper content | ResizableComponent content
  | WithWidgetName _ content | DraggableComponent content
  | SnipeableComponent content | PositionedContainer content
  | DynamicHeightOverlay content => errorBoundaries content
  end.

(** Wrappers that place the widget in the layout or let the user move and
    resize it. *)
Fixpoint layoutWrappers (view : View) : nat :=
  match view with
  | PageView => 0
  | ResizableComponent content | DraggableComponent content
  | SnipeableComponent content | PositionedContainer content
  | DynamicHeightOverlay content => S (layoutWrappers content)
  | ErrorBoundary content | PreviewModeComponent _ content
  | PreventInteractionsOverlay content | OverlayCommentsWrapper content
  | WithWidgetName _ content => layoutWrappers content
  end.

(** X24. Whenever [getWidgetView] renders something, the page view sits
    inside exactly one error boundary; and it renders something unless the
    render mode is unknown, in which case it throws, or the page shows an
    invisible widget, in which case it returns [null]. *)
Theorem getWidgetView_error_boundary props :
  match getWidgetView props with
  | Element view =>
      errorBoundaries view = 1%nat
      ∧ (renderMode props = CANVAS
         ∨ renderMode props = PAGE ∧ truthy (isVisible props) = true)
  | Null => renderMode props = PAGE ∧ truthy (isVisible props) = false
  | Throws _ => renderMode props = OtherRenderMode
  end.
Proof.
  unfold getWidgetView, showWidgetName, getCanvasView.
  destruct props as [mode visible detach resize pane limits]. simpl.
  destruct mode, (truthy visible) eqn:Hv, (truthy detach), (truthy resize),
    limits; simpl; auto.
Qed.

(** X25. The editor's wrappers (preview, resize, name, drag, snipe, dynamic
    height overlay) appear on the canvas only, never on the page; and in
    both modes a view is free of the wrappers that position, resize, drag or
    snipe the widget exactly when the widget is detached from the layout. *)
Theorem getWidgetView_wrappers props view :
  getWidgetView props = Element view →
  (editorWrappers view = 0%nat ↔ renderMode props = PAGE)
  ∧ (layoutWrappers view = 0%nat
     ↔ truthy (detachFromLayout props) = true).
Proof.
  unfold getWidgetView, showWidgetName, getCanvasView.
  destruct props as [mode visible detach resize pane limits]. simpl.
  destruct mode, (truthy visible), (truthy detach), (truthy resize), limits;
    simpl; intros [= <-]; simpl; split; split; intros; done.
Qed.

Lemma getWidgetView_wrappers_witness :
  let props := mkViewProps PAGE (Some true) None None None false in
  let view :=
    PositionedContainer
      (ErrorBoundary (OverlayCommentsWrapper
                        (PreventInteractionsOverlay PageView))) in
  getWidgetView props = Element view
  ∧ (editorWrappers view = 0%nat ↔ renderMode props = PAGE)
  ∧ (layoutWrappers view = 0%nat
     ↔ truthy (detachFromLayout props) = true).
Proof.
  intros props view. split; [reflexivity|].
  apply (getWidgetView_wrappers props view). reflexivity.
Defined.

End BaseWidget.
